(** * MrRSS i18n usage analyzer: key extraction, reference scanning, reconciliation

    A shallow embedding of [tools/i18n-analyzer/main.py] (and of the older
    line-by-line [tools/i18n_analyzer.py]) together with the properties the
    specification states about them.

    Text is a [string] whose characters are code points below 256.  Python's
    [re] patterns are kept as values of a small regular-expression syntax
    ([re]) and run by a backtracking matcher with Python's priorities, so each
    pattern below can be read side by side with the literal in the source. *)

From Stdlib Require Import String Ascii NArith List Lia Bool.
From stdpp Require Import gmap strings list fin_maps sorting pretty.

Open Scope string_scope.
Open Scope list_scope.

(** ** Characters *)

Definition code (c : ascii) : N := N_of_ascii c.

Definition in_range (lo hi : N) (c : ascii) : bool :=
  ((lo <=? code c) && (code c <=? hi))%N.

Definition newline : ascii := "010"%char.

Definition is_newline (c : ascii) : bool := (code c =? 10)%N.

(** [\s] on a [str] pattern: the characters for which [str.isspace] holds;
    below 256 these are TAB..CR, FS..US, space, NEL and NBSP. *)
Definition is_space (c : ascii) : bool :=
  in_range 9 13 c || in_range 28 32 c || (code c =? 133)%N || (code c =? 160)%N.

Definition is_upper (c : ascii) : bool := in_range 65 90 c.
Definition is_lower (c : ascii) : bool := in_range 97 122 c.
Definition is_digit (c : ascii) : bool := in_range 48 57 c.
Definition is_underscore (c : ascii) : bool := (code c =? 95)%N.

(** [[a-zA-Z_]] and [[a-zA-Z0-9_]] *)
Definition is_ident_start (c : ascii) : bool :=
  is_lower c || is_upper c || is_underscore c.
Definition is_ident_char (c : ascii) : bool :=
  is_lower c || is_upper c || is_digit c || is_underscore c.

(** [[a-zA-Z0-9._\-]] *)
Definition is_key_char (c : ascii) : bool :=
  is_lower c || is_upper c || is_digit c
  || (code c =? 46)%N || is_underscore c || (code c =? 45)%N.

(** the three quote characters: apostrophe, double quote, backtick *)
Definition is_quote (c : ascii) : bool :=
  (code c =? 39)%N || (code c =? 34)%N || (code c =? 96)%N.

(** apostrophe or double quote (the older analyzer's class) *)
Definition is_quote2 (c : ascii) : bool :=
  (code c =? 39)%N || (code c =? 34)%N.

(** [\w] on a [str] pattern: [str.isalnum] or underscore.  Below 256 the
    alphanumerics outside ASCII are the Latin-1 letters, the ordinal
    indicators, micro, the superscript digits and the vulgar fractions. *)
Definition is_word (c : ascii) : bool :=
  is_ident_char c
  || (code c =? 170)%N || (code c =? 178)%N || (code c =? 179)%N
  || (code c =? 181)%N || (code c =? 185)%N || (code c =? 186)%N
  || in_range 188 190 c || in_range 192 214 c || in_range 216 246 c
  || in_range 248 255 c.

(** [.] without and with [re.DOTALL] *)
Definition dot (c : ascii) : bool := negb (is_newline c).
Definition dotall (c : ascii) : bool := true.

(** ** Strings *)

Fixpoint count_char (a : ascii) (s : string) : nat :=
  match s with
  | EmptyString => 0
  | String c s' => (if Ascii.eqb c a then 1 else 0) + count_char a s'
  end.

(** [s[:n]] *)
Fixpoint take (n : nat) (s : string) : string :=
  match n, s with
  | S n', String c s' => String c (take n' s')
  | _, _ => EmptyString
  end.

(** [s.split('\n')] *)
Fixpoint split_lines (s : string) : list string :=
  match s with
  | EmptyString => [EmptyString]
  | String c s' =>
      if is_newline c then EmptyString :: split_lines s'
      else match split_lines s' with
           | l :: ls => String c l :: ls
           | [] => [String c EmptyString]
           end
  end.

(** the longest prefix of characters in [p], and what follows it *)
Fixpoint span (p : ascii -> bool) (s : string) : string * string :=
  match s with
  | String c s' =>
      if p c then let '(a, b) := span p s' in (String c a, b) else (EmptyString, s)
  | EmptyString => (EmptyString, EmptyString)
  end.

(** [sep.join(parts)] *)
Fixpoint join (sep : string) (parts : list string) : string :=
  match parts with
  | [] => EmptyString
  | [x] => x
  | x :: rest => x +:+ sep +:+ join sep rest
  end.

Fixpoint starts_with (p s : string) : bool :=
  match p, s with
  | EmptyString, _ => true
  | String a p', String c s' => Ascii.eqb a c && starts_with p' s'
  | String _ _, EmptyString => false
  end.

(** [p in s] *)
Fixpoint contains (p s : string) : bool :=
  starts_with p s ||
  match s with
  | EmptyString => false
  | String _ s' => contains p s'
  end.

Definition ends_with (p s : string) : bool :=
  (String.length p <=? String.length s)%nat
  && String.eqb (String.substring (String.length s - String.length p) (String.length p) s) p.

(** ** Regular expressions as Python's [re] runs them *)

Inductive re : Type :=
| Chr (p : ascii -> bool)          (* one character of a class *)
| Lit (l : string)                 (* re.escape(l) *)
| Cat (r1 r2 : re)
| Star (p : ascii -> bool)         (* p*   greedy *)
| LazyStar (p : ascii -> bool)     (* p*?  lazy *)
| Opt (r : re)                     (* (?:r)? greedy *)
| Group (r : re)                   (* (r), group 1 *)
| Bol                              (* ^ under re.MULTILINE *)
| Eol                              (* $ under re.MULTILINE *)
| NotBehind (p : ascii -> bool).   (* (?<!p) *)

Definition Plus (p : ascii -> bool) : re := Cat (Chr p) (Star p).
Definition LazyPlus (p : ascii -> bool) : re := Cat (Chr p) (LazyStar p).

Fixpoint seq (rs : list re) : re :=
  match rs with
  | [] => Lit ""
  | [r] => r
  | r :: rs' => Cat r (seq rs')
  end.

(** The matcher's position: the character before it (for [^] and the
    lookbehind), the text from it on, the number of characters consumed since
    the match started, and group 1 if it was closed. *)
Definition cont (R : Type) : Type :=
  option ascii -> string -> nat -> option string -> option R.

Fixpoint star_greedy {R} (p : ascii -> bool) (prev : option ascii) (s : string)
    (n : nat) (g : option string) (k : cont R) : option R :=
  match s with
  | String c s' =>
      if p c then
        match star_greedy p (Some c) s' (S n) g k with
        | Some r => Some r
        | None => k prev s n g
        end
      else k prev s n g
  | EmptyString => k prev s n g
  end.

Fixpoint star_lazy {R} (p : ascii -> bool) (prev : option ascii) (s : string)
    (n : nat) (g : option string) (k : cont R) : option R :=
  match k prev s n g with
  | Some r => Some r
  | None =>
      match s with
      | String c s' => if p c then star_lazy p (Some c) s' (S n) g k else None
      | EmptyString => None
      end
  end.

Fixpoint literal {R} (l : string) (prev : option ascii) (s : string)
    (n : nat) (g : option string) (k : cont R) : option R :=
  match l with
  | EmptyString => k prev s n g
  | String a l' =>
      match s with
      | String c s' => if Ascii.eqb a c then literal l' (Some c) s' (S n) g k else None
      | EmptyString => None
      end
  end.

(** Backtracking with Python's priorities: a greedy repetition tries the
    longest run first, a lazy one the shortest, an optional group is tried
    before it is skipped, and the first success is the match. *)
Fixpoint exec {R} (r : re) (prev : option ascii) (s : string)
    (n : nat) (g : option string) (k : cont R) {struct r} : option R :=
  match r with
  | Chr p =>
      match s with
      | String c s' => if p c then k (Some c) s' (S n) g else None
      | EmptyString => None
      end
  | Lit l => literal l prev s n g k
  | Cat r1 r2 =>
      exec r1 prev s n g (fun prev' s' n' g' => exec r2 prev' s' n' g' k)
  | Star p => star_greedy p prev s n g k
  | LazyStar p => star_lazy p prev s n g k
  | Opt r1 =>
      match exec r1 prev s n g k with
      | Some x => Some x
      | None => k prev s n g
      end
  | Group r1 =>
      exec r1 prev s n g (fun prev' s' n' _ => k prev' s' n' (Some (take (n' - n) s)))
  | Bol =>
      match prev with
      | None => k prev s n g
      | Some c => if is_newline c then k prev s n g else None
      end
  | Eol =>
      match s with
      | EmptyString => k prev s n g
      | String c _ => if is_newline c then k prev s n g else None
      end
  | NotBehind p =>
      match prev with
      | Some c => if p c then None else k prev s n g
      | None => k prev s n g
      end
  end.

(** what a completed match reports: its length and group 1 *)
Definition report : cont (nat * string) := fun _ _ n g => Some (n, default "" g).

(** One match attempt at a position: the match's length and group 1. *)
Definition match_at (r : re) (prev : option ascii) (s : string) : option (nat * string) :=
  exec r prev s 0 None report.

(** A match as [finditer] yields it: [m.start()], [m.end() - m.start()] and
    [m.group(1)]. *)
Record rmatch : Type := RMatch { m_start : nat; m_len : nat; m_group : string }.

(** [pattern.finditer(content)]: leftmost matches, left to right, the search
    resuming where the previous match ended.  [skip] counts the characters of
    the current match still to step over.  Every pattern of the analyzer
    consumes at least one character, so empty matches do not arise. *)
Fixpoint finditer_from (r : re) (prev : option ascii) (pos skip : nat) (s : string)
    : list rmatch :=
  match s with
  | EmptyString => []
  | String c s' =>
      match skip with
      | S k => finditer_from r (Some c) (S pos) k s'
      | O =>
          match match_at r prev s with
          | Some (n, g) => RMatch pos n g :: finditer_from r (Some c) (S pos) (n - 1) s'
          | None => finditer_from r (Some c) (S pos) 0 s'
          end
      end
  end.

Definition finditer (r : re) (content : string) : list rmatch :=
  finditer_from r None 0 0 content.

(** [re.sub(pattern, '', content)]: every match of [finditer] is deleted. *)
Fixpoint re_sub_from (r : re) (prev : option ascii) (skip : nat) (s : string) : string :=
  match s with
  | EmptyString => EmptyString
  | String c s' =>
      match skip with
      | S k => re_sub_from r (Some c) k s'
      | O =>
          match match_at r prev s with
          | Some (S k, _) => re_sub_from r (Some c) k s'
          | _ => String c (re_sub_from r (Some c) 0 s')
          end
      end
  end.

Definition re_sub (r : re) (content : string) : string := re_sub_from r None 0 content.

(** [content[:pos].count('\n') + 1] *)
Definition line_of (content : string) (pos : nat) : nat :=
  count_char newline (take pos content) + 1.

(** ** The comment stripper *)

(** [r'//.*?$'] with [re.MULTILINE] *)
Definition line_comment : re := seq [Lit "//"; LazyStar dot; Eol].

(** [r'/\*.*?\*/'] with [re.DOTALL] *)
Definition block_comment : re := seq [Lit "/*"; LazyStar dotall; Lit "*/"].

(** The two substitutions every reader of a file applies, in this order. *)
Definition strip_comments (content : string) : string :=
  re_sub block_comment (re_sub line_comment content).

Definition line_count (content : string) : nat := List.length (split_lines content).

(** ** Files and printed warnings *)

(** A file that exists either yields its text or fails when opened or read
    (with the exception's message).  A path that is not listed does not
    exist.  Paths are relative to the project root, in the order in which
    the directory walk meets them. *)
Inductive file : Type :=
| Text (content : string)
| Unreadable (err : string).

Definition filesystem : Type := list (string * file).

Fixpoint fs_lookup (fs : filesystem) (path : string) : option file :=
  match fs with
  | [] => None
  | (p, f) :: fs' => if String.eqb p path then Some f else fs_lookup fs' path
  end.

(** What a call does: it returns a value or lets an exception escape, and in
    both cases it has printed some [Warning: ...] lines.  Progress and
    statistics lines belong to the reporting layer and are left out. *)
Inductive outcome (A : Type) : Type :=
| Returned (a : A) (warnings : list string)
| Raised (warnings : list string).
Arguments Returned {A} a warnings.
Arguments Raised {A} warnings.

#[global] Instance outcome_bind : MBind outcome := fun A B f x =>
  match x with
  | Returned a w =>
      match f a with
      | Returned b w' => Returned b (w ++ w')
      | Raised w' => Raised (w ++ w')
      end
  | Raised w => Raised w
  end.

Definition EN_FILE : string := "frontend/src/i18n/locales/en.ts".
Definition ZH_FILE : string := "frontend/src/i18n/locales/zh.ts".
Definition TYPES_FILE : string := "frontend/src/i18n/types.ts".
Definition FRONTEND_DIR : string := "frontend/src".

(** ** The hierarchical key extractor *)

(** an identifier: a letter or underscore, then letters, digits, underscores *)
Definition identifier : re := Group (Cat (Chr is_ident_start) (Star is_ident_char)).

(** line start, optional whitespace, the identifier as group 1, a colon with
    optional whitespace on both sides, then what opens the value *)
Definition declaration (opener : re) : re :=
  seq [Bol; Star is_space; identifier; Star is_space; Lit ":"; Star is_space; opener].

(** category pattern: the value opens with a brace *)
Definition obj_pattern : re := declaration (Lit "{").

(** leaf pattern of a locale file: the value opens with one of the three quotes *)
Definition value_pattern : re := declaration (Chr is_quote).

(** leaf pattern of the type file: the value is the token [string;] *)
Definition type_value_pattern : re := declaration (Lit "string;").

(** An element of [all_matches]: [(position, line_num, key, is_category)]. *)
Record decl_match : Type := DeclMatch {
  position : nat;
  line_num : nat;
  key : string;
  is_category : bool
}.

Definition matches_of (content : string) (pattern : re) (is_cat : bool) : list decl_match :=
  map (fun m => DeclMatch (m_start m) (line_of content (m_start m)) (m_group m) is_cat)
      (finditer pattern content).

(** [all_matches.sort(key=lambda x: x[0])]: stable, ascending by position. *)
Fixpoint insert_by_position (x : decl_match) (l : list decl_match) : list decl_match :=
  match l with
  | [] => [x]
  | y :: l' =>
      if (position x <=? position y)%nat then x :: l
      else y :: insert_by_position x l'
  end.

Definition sort_by_position (l : list decl_match) : list decl_match :=
  foldr insert_by_position [] l.

Definition all_matches (content : string) (leaf : re) : list decl_match :=
  sort_by_position (matches_of content obj_pattern true ++ matches_of content leaf false).

(** The state of the extraction loop.  [path_stack] holds [(segment, indent)]
    pairs with the top of Python's list at the head, so the segment chain
    [[p[0] for p in path_stack]] is the reverse of the heads. *)
Record extraction : Type := Extraction {
  path_stack : list (string * nat);
  keys : gmap string nat;
  categories : gset string
}.

Definition initial : extraction := Extraction [] ∅ ∅.

(** the length of the line's leading whitespace, which is what the match of
    the indentation pattern against [current_line] captures *)
Definition indent_of (current_line : string) : nat :=
  String.length (fst (span is_space current_line)).

(** [lines[line_num - 1] if line_num <= len(lines) else ""]; line numbers
    start at 1. *)
Definition line_at (lines : list string) (line_num : nat) : string :=
  if (line_num <=? List.length lines)%nat then nth (line_num - 1) lines "" else "".

(** [while path_stack and path_stack[-1][1] >= indent_level: path_stack.pop()] *)
Fixpoint pop_closed (indent_level : nat) (stack : list (string * nat)) : list (string * nat) :=
  match stack with
  | (seg, ind) :: below =>
      if (indent_level <=? ind)%nat then pop_closed indent_level below else stack
  | [] => []
  end.

Definition chain (stack : list (string * nat)) : list string := rev (map fst stack).

(** [if full_key not in keys: keys[full_key] = line_num] *)
Definition record_first (full_key : string) (line : nat) (table : gmap string nat)
    : gmap string nat :=
  match table !! full_key with
  | Some _ => table
  | None => <[full_key := line]> table
  end.

(** The KeyPath a match declares, given the stack as popped for it. *)
Definition full_key_of (popped : list (string * nat)) (m : decl_match) : string :=
  if is_category m then join "." (chain popped ++ [key m])
  else match popped with
       | [] => key m
       | _ :: _ => join "." (chain popped ++ [key m])
       end.

(** What the loop body does with a match once the stack has been popped for
    it: a category is pushed and marked, and in both cases the KeyPath is
    recorded unless the table already has it. *)
Definition declare (indent_level : nat) (m : decl_match) (popped : list (string * nat))
    (st : extraction) : extraction :=
  let full_key := full_key_of popped m in
  if is_category m then
    Extraction ((key m, indent_level) :: popped)
               (record_first full_key (line_num m) (keys st))
               ({[full_key]} ∪ categories st)
  else
    Extraction popped (record_first full_key (line_num m) (keys st)) (categories st).

(** One iteration of [for position, line_num, key, is_category in all_matches]. *)
Definition process_match (lines : list string) (st : extraction) (m : decl_match)
    : extraction :=
  let indent_level := indent_of (line_at lines (line_num m)) in
  declare indent_level m (pop_closed indent_level (path_stack st)) st.

(** The declaration an iteration handles: its KeyPath and its line number. *)
Definition declaration_of (lines : list string) (st : extraction) (m : decl_match)
    : string * nat :=
  let indent_level := indent_of (line_at lines (line_num m)) in
  (full_key_of (pop_closed indent_level (path_stack st)) m, line_num m).

(** The declarations of a run of the loop, in the order they are handled. *)
Fixpoint declarations (lines : list string) (ms : list decl_match) (st : extraction)
    : list (string * nat) :=
  match ms with
  | [] => []
  | m :: ms' => declaration_of lines st m :: declarations lines ms' (process_match lines st m)
  end.

Definition process_matches (lines : list string) (ms : list decl_match) (st : extraction)
    : extraction :=
  fold_left (process_match lines) ms st.

(** The body of both extractors once the file has been read: [lines] comes
    from the text as read, the matches from the text without comments. *)
Definition extract_from (content : string) (leaf : re) : extraction :=
  let lines := split_lines content in
  let stripped := re_sub block_comment (re_sub line_comment content) in
  process_matches lines (all_matches stripped leaf) initial.

(** the line printed for a declaration file that does not exist *)
Definition not_found (file_path : string) : string :=
  "Warning: " +:+ file_path +:+ " not found".

Definition extract_keys_from_locale (fs : filesystem) (file_path : string)
    : outcome (gmap string nat * gset string) :=
  match fs_lookup fs file_path with
  | None => Returned (∅, ∅) [not_found file_path]
  | Some (Unreadable _) => Raised []
  | Some (Text content) =>
      let st := extract_from content value_pattern in
      Returned (keys st, categories st) []
  end.

(** The type extractor runs the same loop with the typed-field leaf pattern
    and returns the table only. *)
Definition extract_keys_from_types (fs : filesystem) (file_path : string)
    : outcome (gmap string nat) :=
  match fs_lookup fs file_path with
  | None => Returned ∅ [not_found file_path]
  | Some (Unreadable _) => Raised []
  | Some (Text content) => Returned (keys (extract_from content type_value_pattern)) []
  end.

(** ** The reference scanner *)

(** The call pattern, read with [re.VERBOSE | re.DOTALL]: no word character
    before, [t(], optional whitespace, a quote, the key as group 1, a quote,
    optional whitespace, optionally a comma and at least one more character
    (lazily), optional whitespace, the closing parenthesis. *)
Definition call_pattern (key_re : re) : re :=
  seq [NotBehind is_word; Lit "t("; Star is_space;
       Chr is_quote; Group key_re; Chr is_quote;
       Star is_space; Opt (Cat (Lit ",") (LazyPlus dotall));
       Star is_space; Lit ")"].

(** [find_all_i18n_calls]: the key is one or more characters of the key class *)
Definition any_call : re := call_pattern (Plus is_key_char).

(** [find_i18n_usage]: the key is [re.escape(key)] *)
Definition call_of (key : string) : re := call_pattern (Lit key).

(** [labelKey], a colon with optional whitespace around it, a quoted key *)
Definition label_pattern : re :=
  seq [Lit "labelKey"; Star is_space; Lit ":"; Star is_space;
       Chr is_quote; Group (Plus is_key_char); Chr is_quote].

Definition extensions : list string := ["*.vue"; "*.ts"; "*.tsx"; "*.js"; "*.jsx"].

Definition special_files : list string :=
  ["composables/rules/useRuleOptions.ts"; "composables/filter/useFilterFields.ts"].

(** the last component of a path *)
Fixpoint basename (path : string) : string :=
  match path with
  | EmptyString => EmptyString
  | String c rest =>
      if contains "/" rest then basename rest
      else if Ascii.eqb c "/" then rest else path
  end.

(** a pattern [*suffix] against a file name *)
Definition glob (pattern name : string) : bool :=
  match pattern with
  | String "*" suffix => ends_with suffix name
  | _ => String.eqb pattern name
  end.

(** [search_dir.rglob(ext)]: the files below [search_dir] whose name matches,
    in the order of the walk. *)
Definition rglob (fs : filesystem) (search_dir ext : string) : filesystem :=
  List.filter (fun e => starts_with (search_dir +:+ "/") (fst e) && glob ext (basename (fst e))) fs.

(** [str(file_path.relative_to(search_dir))] for a path below [search_dir] *)
Definition relative_to (search_dir file_path : string) : string :=
  String.substring (String.length search_dir + 1)
                   (String.length file_path - (String.length search_dir + 1)) file_path.

(** the two nested loops [for ext in ...: for file_path in search_dir.rglob(ext)] *)
Definition walk (fs : filesystem) (search_dir : string) : filesystem :=
  flat_map (rglob fs search_dir) extensions.

(** the line printed when reading a file raised [err] *)
Definition could_not_read (file_path err : string) : string :=
  "Warning: Could not read " +:+ file_path +:+ ": " +:+ err.

(** the [(file, line)] pairs of a pattern's matches in one file's text, comments
    removed first *)
Definition locations (pattern : re) (search_dir file_path content : string)
    : list (string * nat) :=
  let content := re_sub block_comment (re_sub line_comment content) in
  map (fun m => (relative_to search_dir file_path, line_of content (m_start m)))
      (finditer pattern content).

(** One file of [find_i18n_usage]'s walk. *)
Definition usage_in_file (pattern : re) (search_dir : string)
    (acc : list (string * nat) * list string) (e : string * file)
    : list (string * nat) * list string :=
  let '(usages, warnings) := acc in
  let '(file_path, f) := e in
  if contains "i18n/" file_path then acc
  else match f with
       | Text content => (usages ++ locations pattern search_dir file_path content, warnings)
       | Unreadable err => (usages, warnings ++ [could_not_read file_path err])
       end.

Definition find_i18n_usage (key search_dir : string) (fs : filesystem)
    : list (string * nat) * list string :=
  fold_left (usage_in_file (call_of key) search_dir) (walk fs search_dir) ([], []).

(** [if key not in d: d[key] = []] then [d[key].append(loc)] *)
Definition add_location (d : gmap string (list (string * nat))) (k : string) (loc : string * nat)
    : gmap string (list (string * nat)) :=
  <[k := default [] (d !! k) ++ [loc]]> d.

(** the matches of a key-capturing pattern in one file's text, added to [d] *)
Definition index_matches (pattern : re) (search_dir file_path content : string)
    (d : gmap string (list (string * nat))) : gmap string (list (string * nat)) :=
  let content := re_sub block_comment (re_sub line_comment content) in
  fold_left (fun d m => add_location d (m_group m)
                          (relative_to search_dir file_path, line_of content (m_start m)))
            (finditer pattern content) d.

Definition extract_label_keys_from_file (fs : filesystem) (file_path search_dir : string)
    : gmap string (list (string * nat)) * list string :=
  match fs_lookup fs file_path with
  | None => (∅, [])
  | Some (Unreadable err) => (∅, [could_not_read file_path err])
  | Some (Text content) => (index_matches label_pattern search_dir file_path content ∅, [])
  end.

(** One file of [find_all_i18n_calls]'s walk. *)
Definition calls_in_file (search_dir : string)
    (acc : gmap string (list (string * nat)) * list string) (e : string * file)
    : gmap string (list (string * nat)) * list string :=
  let '(all_calls, warnings) := acc in
  let '(file_path, f) := e in
  if contains "i18n/" file_path then acc
  else match f with
       | Text content => (index_matches any_call search_dir file_path content all_calls, warnings)
       | Unreadable err => (all_calls, warnings ++ [could_not_read file_path err])
       end.

(** [all_calls[key].extend(locations)] for every item of [label_keys] *)
Definition merge_calls (all_calls label_keys : gmap string (list (string * nat)))
    : gmap string (list (string * nat)) :=
  union_with (fun a b => Some (a ++ b)) all_calls label_keys.

(** One special file of [find_all_i18n_calls]. *)
Definition merge_special (fs : filesystem) (search_dir : string)
    (acc : gmap string (list (string * nat)) * list string) (special_file : string)
    : gmap string (list (string * nat)) * list string :=
  let '(all_calls, warnings) := acc in
  let file_path := search_dir +:+ "/" +:+ special_file in
  match fs_lookup fs file_path with
  | None => acc
  | Some _ =>
      let '(label_keys, w) := extract_label_keys_from_file fs file_path search_dir in
      (merge_calls all_calls label_keys, warnings ++ w)
  end.

(** the first loop of [find_all_i18n_calls]: direct calls only *)
Definition direct_calls (search_dir : string) (fs : filesystem)
    : gmap string (list (string * nat)) * list string :=
  fold_left (calls_in_file search_dir) (walk fs search_dir) (∅, []).

Definition find_all_i18n_calls (search_dir : string) (fs : filesystem)
    : gmap string (list (string * nat)) * list string :=
  fold_left (merge_special fs search_dir) special_files (direct_calls search_dir fs).

(** ** The reconciler: [main] up to its result sets *)

(** [sorted(...)] on strings: ascending by code points *)
Definition sorted (l : list string) : list string :=
  merge_sort (fun a b => String.leb a b) l.

Record reconciliation : Type := Reconciliation {
  en_keys : gmap string nat;
  zh_keys : gmap string nat;
  types_keys : gmap string nat;
  all_categories : gset string;
  all_keys : list string;
  filtered_keys : list string;
  all_calls : gmap string (list (string * nat));
  missing_keys : gset string;
  label_key_usage : gset string;
  unused_keys : list string;
  missing_in_zh_filtered : list string;
  missing_in_en_filtered : list string
}.

(** [label_key_usage.update(label_keys.keys())] for each special file that exists *)
Definition label_usage_step (fs : filesystem)
    (acc : gset string * list string) (special_file : string) : gset string * list string :=
  let '(used, warnings) := acc in
  let file_path := FRONTEND_DIR +:+ "/" +:+ special_file in
  match fs_lookup fs file_path with
  | None => acc
  | Some _ =>
      let '(label_keys, w) := extract_label_keys_from_file fs file_path FRONTEND_DIR in
      (used ∪ dom label_keys, warnings ++ w)
  end.

(** One iteration of [for key in filtered_keys] building [unused_keys]. *)
Definition unused_step (fs : filesystem) (used_in_labels : gset string)
    (acc : list string * list string) (k : string) : list string * list string :=
  let '(unused, warnings) := acc in
  let '(usages, w) := find_i18n_usage k FRONTEND_DIR fs in
  let used_in_label_key := bool_decide (k ∈ used_in_labels) in
  if (List.length usages =? 0)%nat && negb used_in_label_key
  then (unused ++ [k], warnings ++ w)
  else (unused, warnings ++ w).

(** [main] from the scan of the source tree to the result sets, given what
    the three extractors returned. *)
Definition reconcile (fs : filesystem)
    (en_keys : gmap string nat) (en_categories : gset string)
    (zh_keys : gmap string nat) (zh_categories : gset string)
    (types_keys : gmap string nat) : reconciliation * list string :=
  let all_categories := en_categories ∪ zh_categories in
  let all_keys := sorted (elements (dom en_keys ∪ dom zh_keys ∪ dom types_keys)) in
  let filtered_keys :=
    List.filter (fun k => negb (bool_decide (k ∈ all_categories))) all_keys in
  let '(all_calls, w1) := find_all_i18n_calls FRONTEND_DIR fs in
  let missing_keys := dom all_calls ∖ list_to_set all_keys in
  let '(label_key_usage, w2) := fold_left (label_usage_step fs) special_files (∅, []) in
  let '(unused_keys, w3) :=
    fold_left (unused_step fs label_key_usage) filtered_keys ([], []) in
  let missing_in_zh := dom en_keys ∖ dom zh_keys in
  let missing_in_en := dom zh_keys ∖ dom en_keys in
  let not_category := fun k => negb (bool_decide (k ∈ all_categories)) in
  (Reconciliation en_keys zh_keys types_keys all_categories all_keys filtered_keys
     all_calls missing_keys label_key_usage unused_keys
     (List.filter not_category (sorted (elements missing_in_zh)))
     (List.filter not_category (sorted (elements missing_in_en))),
   w1 ++ w2 ++ w3).

Definition main (fs : filesystem) : outcome reconciliation :=
  '(en_keys, en_categories) ← extract_keys_from_locale fs EN_FILE;
  '(zh_keys, zh_categories) ← extract_keys_from_locale fs ZH_FILE;
  types_keys ← extract_keys_from_types fs TYPES_FILE;
  let '(result, warnings) :=
    reconcile fs en_keys en_categories zh_keys zh_categories types_keys in
  Returned result warnings.

(** ** Positions in a text *)

(** [s[n:]] *)
Fixpoint drop_chars (n : nat) (s : string) : string :=
  match n, s with
  | S n', String _ s' => drop_chars n' s'
  | _, _ => s
  end.

(** the character before position [pos], if there is one *)
Definition char_before (content : string) (pos : nat) : option ascii :=
  match pos with
  | O => None
  | S i => String.get i content
  end.

(** No match of [r] begins inside an earlier match of [r]: along the scan of
    [finditer], every position stepped over is one where [r] does not match. *)
Fixpoint no_nesting_from (r : re) (prev : option ascii) (skip : nat) (s : string) : bool :=
  match s with
  | EmptyString => true
  | String c s' =>
      match skip with
      | S k =>
          match match_at r prev s with
          | Some _ => false
          | None => no_nesting_from r (Some c) k s'
          end
      | O =>
          match match_at r prev s with
          | Some (n, _) => no_nesting_from r (Some c) (n - 1) s'
          | None => no_nesting_from r (Some c) 0 s'
          end
      end
  end.

Definition no_nesting (r : re) (content : string) : bool := no_nesting_from r None 0 content.

(** the files the scanners read: those of the walk outside the declaration
    directory that yield their text *)
Definition scanned (fs : filesystem) (search_dir : string) : list (string * string) :=
  flat_map (fun e => match snd e with
                     | Text content =>
                         if contains "i18n/" (fst e) then [] else [(fst e, content)]
                     | Unreadable _ => []
                     end)
           (walk fs search_dir).

(** the locations the special files' [labelKey] properties give a key *)
Definition label_locations (fs : filesystem) (search_dir k : string) : list (string * nat) :=
  flat_map (fun special_file =>
              default [] (fst (extract_label_keys_from_file fs
                                 (search_dir +:+ "/" +:+ special_file) search_dir) !! k))
           special_files.

(** ** The older line-by-line extractor ([tools/i18n_analyzer.py]) *)

Module Legacy.

(** [f.readlines()]: the lines with their newline kept *)
Fixpoint readlines (s : string) : list string :=
  match s with
  | EmptyString => []
  | String c s' =>
      if is_newline c then String c EmptyString :: readlines s'
      else match readlines s' with
           | l :: ls => String c l :: ls
           | [] => [String c EmptyString]
           end
  end.

(** [s.rstrip()] *)
Fixpoint rstrip (s : string) : string :=
  match s with
  | EmptyString => EmptyString
  | String c s' =>
      match rstrip s' with
      | EmptyString => if is_space c then EmptyString else String c EmptyString
      | r => String c r
      end
  end.

(** [line.strip()] *)
Definition strip (line : string) : string := rstrip (snd (span is_space line)).

(** the leaf pattern accepts an apostrophe or a double quote only *)
Definition value_pattern : re := declaration (Chr is_quote2).

(** One iteration of [for line_num, line in enumerate(lines, start=1)];
    [re.match] tries the pattern at the start of the line only. *)
Definition process_line (st : extraction) (numbered : nat * string) : extraction :=
  let '(line_num, line) := numbered in
  if starts_with "//" (strip line) then st
  else
    let indent_level := indent_of line in
    let popped := pop_closed indent_level (path_stack st) in
    match match_at obj_pattern None line with
    | Some (_, k) => declare indent_level (DeclMatch 0 line_num k true) popped st
    | None =>
        match match_at value_pattern None line with
        | Some (_, k) => declare indent_level (DeclMatch 0 line_num k false) popped st
        | None => Extraction popped (keys st) (categories st)
        end
    end.

(** The declaration an iteration handles, if the line is one. *)
Definition declaration_of (st : extraction) (numbered : nat * string) : option (string * nat) :=
  let '(line_num, line) := numbered in
  if starts_with "//" (strip line) then None
  else
    let popped := pop_closed (indent_of line) (path_stack st) in
    match match_at obj_pattern None line with
    | Some (_, k) => Some (full_key_of popped (DeclMatch 0 line_num k true), line_num)
    | None =>
        match match_at value_pattern None line with
        | Some (_, k) => Some (full_key_of popped (DeclMatch 0 line_num k false), line_num)
        | None => None
        end
    end.

(** The declarations of a run of the loop, in the order they are handled. *)
Fixpoint declarations (numbered : list (nat * string)) (st : extraction)
    : list (string * nat) :=
  match numbered with
  | [] => []
  | x :: rest =>
      match declaration_of st x with
      | Some d => d :: declarations rest (process_line st x)
      | None => declarations rest (process_line st x)
      end
  end.

(** [enumerate(lines, start=1)] *)
Definition enumerate (lines : list string) : list (nat * string) :=
  combine (List.seq 1 (List.length lines)) lines.

Definition extract_from (content : string) : extraction :=
  fold_left process_line (enumerate (readlines content)) initial.

Definition extract_keys_from_locale (fs : filesystem) (file_path : string)
    : outcome (gmap string nat * gset string) :=
  match fs_lookup fs file_path with
  | None => Returned (∅, ∅) [not_found file_path]
  | Some (Unreadable _) => Raised []
  | Some (Text content) =>
      let st := extract_from content in
      Returned (keys st, categories st) []
  end.

End Legacy.

(** ** Notions used by the statements *)

(** categories stay inside the table's domain *)
Definition covered (st : extraction) : Prop := categories st ⊆ dom (keys st).

(** the stack's indentations grow strictly from the bottom to the top *)
Definition increasing (stack : list (string * nat)) : Prop :=
  StronglySorted (fun above below : string * nat => snd below < snd above) stack.

(** the line a table stores for [k] after a run that declared [ds], starting
    from [table] *)
Definition first_line (table : gmap string nat) (ds : list (string * nat)) (k : string)
    : option nat :=
  match table !! k with
  | Some n => Some n
  | None => snd <$> List.find (fun d => String.eqb (fst d) k) ds
  end.

(** the four declarations of the indentation-closing example *)
Definition closing_example (pa la pb lb pc lc pd ld : nat) : list decl_match :=
  [DeclMatch pa la "a" true; DeclMatch pb lb "b" true;
   DeclMatch pc lc "c" false; DeclMatch pd ld "d" true].

(** the expression closes no group *)
Fixpoint group_free (r : re) : bool :=
  match r with
  | Group _ => false
  | Cat r1 r2 => group_free r1 && group_free r2
  | Opt r1 => group_free r1
  | _ => true
  end.

(** every character of [s] is in the class [p] *)
Fixpoint all_chars (p : ascii -> bool) (s : string) : bool :=
  match s with
  | EmptyString => true
  | String c s' => p c && all_chars p s'
  end.

(** the character before the position reached after reading [a] *)
Fixpoint last_char (prev : option ascii) (a : string) : option ascii :=
  match a with
  | EmptyString => prev
  | String c a' => last_char (Some c) a'
  end.

(** what follows the key in the call pattern: the closing quote, the optional
    arguments and the closing parenthesis *)
Definition call_rest : re :=
  seq [Chr is_quote; Star is_space; Opt (Cat (Lit ",") (LazyPlus dotall));
       Star is_space; Lit ")"].

(** the matcher's continuation once the key has been read *)
Definition after_key : cont (nat * string) :=
  fun prev s n g => exec call_rest prev s n g report.

(** from the opening quote on *)
Definition from_quote (key_re : re) : cont (nat * string) :=
  fun prev s n g =>
    match s with
    | String q s' =>
        if is_quote q then exec (Group key_re) (Some q) s' (S n) g after_key else None
    | EmptyString => None
    end.

(** keep a match only if its group is [k] *)
Definition keep (k : string) (o : option (nat * string)) : option (nat * string) :=
  match o with
  | Some (n, g) => if String.eqb g k then Some (n, g) else None
  | None => None
  end.

(** the character before offset [i] of a text that follows [prev] *)
Definition prev_at (prev : option ascii) (s : string) (i : nat) : option ascii :=
  match i with
  | O => prev
  | S j => String.get j s
  end.

(** a line break *)
Definition nl : string := String newline "".

(** the file declares [k] as a category *)
Definition declared_category (fs : filesystem) (file_path k : string) : Prop :=
  ∃ content, fs_lookup fs file_path = Some (Text content)
             ∧ k ∈ categories (extract_from content value_pattern).

(** a locale file with one category holding one leaf *)
Definition category_locale : string :=
  "export default {" +:+ nl +:+ "  a: {" +:+ nl +:+ "    b: 'x'," +:+ nl
  +:+ "  }," +:+ nl +:+ "}".

(** a category that a source file references directly *)
Definition referenced_category : filesystem :=
  [(EN_FILE, Text category_locale); ("frontend/src/App.vue", Text "t('a')")].

(** a locale file that declares [a] as a leaf *)
Definition leaf_locale : string :=
  "export default {" +:+ nl +:+ "  a: 'x'," +:+ nl +:+ "}".

(** one locale declares [a] as a category, the other as a leaf *)
Definition inconsistent_locales : filesystem :=
  [(EN_FILE, Text category_locale); (ZH_FILE, Text leaf_locale);
   ("frontend/src/App.vue", Text "t('a')")].

(** a locale file with two leaves *)
Definition two_leaves_locale : string :=
  "export default {" +:+ nl +:+ "  a: 'x'," +:+ nl +:+ "  b: 'y'," +:+ nl +:+ "}".

(** two leaves, one of them referenced *)
Definition one_unused : filesystem :=
  [(EN_FILE, Text two_leaves_locale); ("frontend/src/App.vue", Text "t('a')")].

(** only the Chinese locale file exists *)
Definition only_zh : filesystem := [(ZH_FILE, Text leaf_locale)].

(** a category, an empty line, then a leaf of the category *)
Definition blank_line_text : string :=
  "a: {" +:+ nl +:+ nl +:+ "  b: 'x'," +:+ nl +:+ "}".

(** a key referenced only through a [labelKey] property *)
Definition label_only : filesystem :=
  [("frontend/src/composables/filter/useFilterFields.ts",
    Text "export const fields = [{ labelKey: 'filter.title' }]")].

(** a direct call and a [labelKey] reference of the same key *)
Definition call_and_label : filesystem :=
  [("frontend/src/App.vue", Text ("t('filter.title')" +:+ nl +:+ "t('other', { n: 1 })"));
   ("frontend/src/composables/filter/useFilterFields.ts",
    Text "export const fields = [{ labelKey: 'filter.title' }]")].

(** a call whose argument list holds another call *)
Definition nested_call : filesystem :=
  [("frontend/src/App.vue", Text "t('a', { n: t('b') })")].

(** calls through functions whose name ends in [t] *)
Definition other_functions : filesystem :=
  [("frontend/src/App.vue",
    Text "document.createElement('x'); el.closest('x'); emit('x')")].

(** the indentation-closing example as a file *)
Definition closing_text : string :=
  "a: {" +:+ nl +:+ "  b: {" +:+ nl +:+ "    c: 'x'," +:+ nl +:+ "  }," +:+ nl
  +:+ "  d: {" +:+ nl +:+ "    e: 'y'," +:+ nl +:+ "  }," +:+ nl +:+ "}".

(** a block comment over two lines, between two declarations *)
Definition two_line_comment : string :=
  "a: 'x', /* note" +:+ nl +:+ "   more */" +:+ nl +:+ "b: 'y',".



(** ** Depth statistics and report links *)

(** [key.count(".") + 1] *)
Definition get_nesting_depth (key : string) : nat := count_char "." key + 1.

(** ["." not in key] *)
Definition is_top_level_key (key : string) : bool := negb (contains "." key).

(** One iteration of the loop of [main] that groups the reported keys:
    [keys_by_depth[depth]] is created empty when absent, then appended to. *)
Definition group_by_depth (keys_by_depth : gmap nat (list string)) (k : string)
    : gmap nat (list string) :=
  let depth := get_nesting_depth k in
  <[depth := default [] (keys_by_depth !! depth) ++ [k]]> keys_by_depth.

Definition keys_by_depth (filtered_keys : list string) : gmap nat (list string) :=
  fold_left group_by_depth filtered_keys ∅.

(** [s.replace(old, new)] for a non-empty [old]: the occurrences are replaced
    from left to right without overlap.  [skip] counts the characters of the
    occurrence being replaced that are still to be stepped over. *)
Fixpoint replace_from (old new : string) (skip : nat) (s : string) : string :=
  match s with
  | EmptyString => EmptyString
  | String c s' =>
      match skip with
      | S k => replace_from old new k s'
      | O =>
          if starts_with old s
          then new +:+ replace_from old new (String.length old - 1) s'
          else String c (replace_from old new 0 s')
      end
  end.

Definition replace (old new s : string) : string := replace_from old new 0 s.

(** [create_file_link] of [main.py]; numbers are printed in decimal. *)
Definition create_file_link (file_path : string) (line_num : nat) (is_windows : bool)
    : string :=
  let file_path := if is_windows then replace "\" "/" file_path else file_path in
  let relative_path := "../../frontend/src/" +:+ file_path in
  let display_text := file_path +:+ ":" +:+ pretty line_num in
  "[" +:+ display_text +:+ "](" +:+ relative_path +:+ "#L" +:+ pretty line_num +:+ ")".

(** the order of [(file_path, line_num)] tuples: by path, then by line *)
Definition usage_le (a b : string * nat) : bool :=
  String.ltb (fst a) (fst b) || (String.eqb (fst a) (fst b) && (snd a <=? snd b)%nat).

(** [sorted(usages)] *)
Definition sorted_usages (usages : list (string * nat)) : list (string * nat) :=
  merge_sort (fun a b => usage_le a b) usages.

Definition create_usage_links (usages : list (string * nat)) (is_windows : bool) : string :=
  match usages with
  | [] => ""
  | _ :: _ =>
      let links :=
        map (fun u => create_file_link (replace "frontend/src/" "" (fst u)) (snd u) is_windows)
            (firstn 10 (sorted_usages usages)) in
      let result := join ", " links in
      if (10 <? List.length usages)%nat
      then result +:+ " ... (" +:+ pretty (List.length usages - 10) +:+ " more)"
      else result
  end.

(** ** The rest of the older analyzer *)

Module LegacyRest.

(** the patterns of the type extractor are tried on the stripped line, so they
    start with the identifier *)
Definition bare_declaration (opener : re) : re :=
  seq [Bol; identifier; Star is_space; Lit ":"; Star is_space; opener].

(** One iteration of the loop of [extract_keys_from_types]: every line is
    processed, the indentation is that of the line as read, the patterns see
    the stripped line. *)
Definition process_type_line (st : extraction) (numbered : nat * string) : extraction :=
  let '(line_num, line) := numbered in
  let stripped := Legacy.strip line in
  let indent_level := indent_of line in
  let popped := pop_closed indent_level (path_stack st) in
  match match_at (bare_declaration (Lit "{")) None stripped with
  | Some (_, k) => declare indent_level (DeclMatch 0 line_num k true) popped st
  | None =>
      match match_at (bare_declaration (Lit "string;")) None stripped with
      | Some (_, k) => declare indent_level (DeclMatch 0 line_num k false) popped st
      | None => Extraction popped (keys st) (categories st)
      end
  end.

Definition extract_types_from (content : string) : extraction :=
  fold_left process_type_line (Legacy.enumerate (Legacy.readlines content)) initial.

Definition extract_keys_from_types (fs : filesystem) (file_path : string)
    : outcome (gmap string nat) :=
  match fs_lookup fs file_path with
  | None => Returned ∅ [not_found file_path]
  | Some (Unreadable _) => Raised []
  | Some (Text content) => Returned (keys (extract_types_from content)) []
  end.

(** the two alternatives of the search pattern of [find_i18n_usage]: the call
    with nothing around the quoted key, and the call with optional whitespace
    around it *)
Definition tight_call (key : string) : re :=
  seq [Lit "t("; Chr is_quote2; Lit key; Chr is_quote2; Lit ")"].

Definition spaced_call (key : string) : re :=
  seq [Lit "t("; Star is_space; Chr is_quote2; Lit key; Chr is_quote2;
       Star is_space; Lit ")"].

(** whether a pattern matches somewhere in a text *)
Fixpoint matches_somewhere (r : re) (prev : option ascii) (s : string) : bool :=
  match match_at r prev s with
  | Some _ => true
  | None =>
      match s with
      | EmptyString => false
      | String c s' => matches_somewhere r (Some c) s'
      end
  end.

(** the truth of [pattern.search(line)]: one of the alternatives matches at
    some position *)
Definition line_has_call (key line : string) : bool :=
  matches_somewhere (tight_call key) None line
  || matches_somewhere (spaced_call key) None line.

Definition extensions : list string := ["*.vue"; "*.ts"; "*.js"].

Definition walk (fs : filesystem) (search_dir : string) : filesystem :=
  flat_map (rglob fs search_dir) extensions.

(** the numbers of the lines of a text on which the pattern is found *)
Definition lines_with_call (key content : string) : list nat :=
  map fst (List.filter (fun nl => line_has_call key (snd nl))
                       (Legacy.enumerate (Legacy.readlines content))).

(** One file of the walk. *)
Definition usage_in_file (key search_dir : string)
    (acc : list (string * nat) * list string) (e : string * file)
    : list (string * nat) * list string :=
  let '(usages, warnings) := acc in
  let '(file_path, f) := e in
  if contains "i18n/locales" file_path then acc
  else match f with
       | Text content =>
           (usages ++ map (fun n => (relative_to search_dir file_path, n))
                          (lines_with_call key content), warnings)
       | Unreadable err => (usages, warnings ++ [could_not_read file_path err])
       end.

Definition find_i18n_usage (key search_dir : string) (fs : filesystem)
    : list (string * nat) * list string :=
  fold_left (usage_in_file key search_dir) (walk fs search_dir) ([], []).

End LegacyRest.

(** ** Further notions used by the statements *)

(** an identifier: a letter or underscore followed by letters, digits and
    underscores *)
Definition is_identifier (s : string) : bool :=
  match s with
  | String c rest => is_ident_start c && all_chars is_ident_char rest
  | EmptyString => false
  end.

(** A key of a table is well nested: it is the dot-join of identifiers, and
    when it has more than one segment, the join of all but the last is a
    key of the table that is marked as a category. *)
Definition well_nested_key (st : extraction) (k : string) : Prop :=
  ∃ (segs : list string) (x : string),
    k = join "." (segs ++ [x])
    ∧ Forall (fun s => is_identifier s = true) (segs ++ [x])
    ∧ (segs ≠ [] → join "." segs ∈ categories st ∧ join "." segs ∈ dom (keys st)).

(** the lines before their first [//] *)
Fixpoint cut_comment (line : string) : string :=
  if starts_with "//" line then EmptyString
  else match line with
       | EmptyString => EmptyString
       | String c rest => String c (cut_comment rest)
       end.

(** the warnings of a scan: one for every file of the walk outside the
    declaration directory that cannot be read *)
Definition unreadable_warnings (fs : filesystem) (search_dir : string) : list string :=
  flat_map (fun e => match snd e with
                     | Unreadable err =>
                         if contains "i18n/" (fst e) then [] else [could_not_read (fst e) err]
                     | Text _ => []
                     end)
           (walk fs search_dir).

(** the file is outside the declaration directory *)
Definition outside_i18n (e : string * file) : bool := negb (contains "i18n/" (fst e)).

(** the file yields its text *)
Definition is_text (e : string * file) : bool :=
  match snd e with
  | Text _ => true
  | Unreadable _ => false
  end.

(** the state of the loop is well nested: the open segments are identifiers,
    every open chain of categories is marked, every key is well nested *)
Definition well_nested (st : extraction) : Prop :=
  Forall (fun e => is_identifier (fst e) = true) (path_stack st)
  ∧ (∀ t, t ≠ [] → t `suffix_of` path_stack st →
          join "." (chain t) ∈ categories st ∧ join "." (chain t) ∈ dom (keys st))
  ∧ (∀ k, k ∈ dom (keys st) → well_nested_key st k).

(** every entry of an index has a key over the key class and at least one
    location *)
Definition index_ok (d : gmap string (list (string * nat))) : Prop :=
  ∀ k l, d !! k = Some l → l ≠ [] ∧ k ≠ "" ∧ all_chars is_key_char k = true.

(** the number of characters up to the end of the line *)
Definition eol_len (s : string) : nat := String.length (fst (span dot s)).

(** the key is a dot-join of identifiers whose parent, if it has one, is a
    key of the table *)
Definition nested_in (table : gmap string nat) (k : string) : Prop :=
  ∃ (segs : list string) (x : string),
    k = join "." (segs ++ [x])
    ∧ Forall (fun s => is_identifier s = true) (segs ++ [x])
    ∧ (segs ≠ [] → join "." segs ∈ dom table).

(** the result of a run on a tree whose only locale file is the English one *)
Definition english_only_run (fs : filesystem) (locale : string) : reconciliation :=
  fst (reconcile fs (keys (extract_from locale value_pattern))
         (categories (extract_from locale value_pattern)) ∅ ∅ ∅).

(** a type file with one nested type holding one leaf *)
Definition category_types : string :=
  "export interface Messages {" +:+ nl +:+ "  a: {" +:+ nl +:+ "    b: string;" +:+ nl
  +:+ "  };" +:+ nl +:+ "}".

(** * Properties *)

(** ** The extraction loop *)

Lemma dom_record_first (k : string) (n : nat) (t : gmap string nat) :
  dom (record_first k n t) = {[k]} ∪ dom t.
Proof.
  unfold record_first. destruct (t !! k) eqn:E.
  - apply elem_of_dom_2 in E. set_solver.
  - apply dom_insert_L.
Qed.

Lemma lookup_record_first (k k' : string) (n : nat) (t : gmap string nat) :
  record_first k n t !! k' =
  match t !! k' with
  | Some v => Some v
  | None => if String.eqb k k' then Some n else None
  end.
Proof.
  unfold record_first. destruct (String.eqb_spec k k') as [->|Hne].
  - destruct (t !! k') eqn:E; [by rewrite E|]. by rewrite lookup_insert_eq.
  - destruct (t !! k) eqn:E; [by destruct (t !! k')|].
    rewrite lookup_insert_ne by done. by destruct (t !! k').
Qed.

Lemma keys_declare i m popped st :
  keys (declare i m popped st) = record_first (full_key_of popped m) (line_num m) (keys st).
Proof. unfold declare. by destruct (is_category m). Qed.

Lemma categories_declare i m popped st :
  categories (declare i m popped st) =
  if is_category m then {[full_key_of popped m]} ∪ categories st else categories st.
Proof. unfold declare. by destruct (is_category m). Qed.

Lemma path_stack_declare i m popped st :
  path_stack (declare i m popped st) = if is_category m then (key m, i) :: popped else popped.
Proof. unfold declare. by destruct (is_category m). Qed.

Lemma covered_initial : covered initial.
Proof. unfold covered. simpl. set_solver. Qed.

Lemma covered_declare i m popped st : covered st → covered (declare i m popped st).
Proof.
  unfold covered. rewrite keys_declare, categories_declare, dom_record_first.
  destruct (is_category m); set_solver.
Qed.

Lemma covered_process_matches lines ms st :
  covered st → covered (process_matches lines ms st).
Proof.
  revert st. induction ms as [|m ms IH]; intros st H; [done|].
  simpl. apply IH. by apply covered_declare.
Qed.

Lemma covered_process_line st nl : covered st → covered (Legacy.process_line st nl).
Proof.
  intros H. destruct nl as [n line]. unfold Legacy.process_line.
  destruct (starts_with _ _); [done|].
  destruct (match_at obj_pattern None line) as [[? ?]|]; [by apply covered_declare|].
  destruct (match_at Legacy.value_pattern None line) as [[? ?]|]; [by apply covered_declare|].
  done.
Qed.

Lemma covered_legacy content : covered (Legacy.extract_from content).
Proof.
  unfold Legacy.extract_from. generalize (Legacy.enumerate (Legacy.readlines content)).
  intros l. generalize covered_initial. generalize initial.
  induction l as [|x l IH]; intros st H; [done|].
  simpl. apply IH. by apply covered_process_line.
Qed.

Lemma pop_closed_filter level stack :
  increasing stack →
  pop_closed level stack = List.filter (fun e => (snd e <? level)%nat) stack.
Proof.
  induction 1 as [|[seg ind] below Hs IH Hall]; [done|].
  simpl. destruct (Nat.leb_spec level ind) as [Hle|Hlt].
  - rewrite IH. destruct (Nat.ltb_spec ind level); [lia|done].
  - destruct (Nat.ltb_spec ind level); [|lia]. f_equal.
    symmetry. apply forallb_filter_id. apply forallb_forall.
    intros e He. rewrite Forall_forall in Hall.
    apply list_elem_of_In in He. apply Hall in He. simpl in He. apply Nat.ltb_lt. lia.
Qed.

Lemma increasing_pop level stack : increasing stack → increasing (pop_closed level stack).
Proof.
  induction 1 as [|[seg ind] below Hs IH Hall]; [constructor|].
  simpl. destruct (level <=? ind)%nat; [done|]. by constructor.
Qed.

Lemma increasing_push level seg stack :
  increasing stack → increasing ((seg, level) :: pop_closed level stack).
Proof.
  intros H. constructor; [by apply increasing_pop|].
  rewrite pop_closed_filter by done. apply Forall_forall. intros e He.
  apply list_elem_of_In, filter_In in He. destruct He as [_ He]. apply Nat.ltb_lt in He. done.
Qed.

Lemma increasing_declare level m st :
  increasing (path_stack st) →
  increasing (path_stack (declare level m (pop_closed level (path_stack st)) st)).
Proof.
  intros H. rewrite path_stack_declare.
  destruct (is_category m); [by apply increasing_push|by apply increasing_pop].
Qed.

Lemma increasing_process_matches lines ms st :
  increasing (path_stack st) → increasing (path_stack (process_matches lines ms st)).
Proof.
  revert st. induction ms as [|m ms IH]; intros st H; [done|].
  simpl. apply IH. by apply increasing_declare.
Qed.

Lemma increasing_process_line st nl :
  increasing (path_stack st) → increasing (path_stack (Legacy.process_line st nl)).
Proof.
  intros H. destruct nl as [n line]. unfold Legacy.process_line.
  destruct (starts_with _ _); [done|].
  destruct (match_at obj_pattern None line) as [[? ?]|]; [by apply increasing_declare|].
  destruct (match_at Legacy.value_pattern None line) as [[? ?]|]; [by apply increasing_declare|].
  simpl. by apply increasing_pop.
Qed.

Lemma first_line_cons table d ds k :
  first_line (record_first (fst d) (snd d) table) ds k = first_line table (d :: ds) k.
Proof.
  unfold first_line. rewrite lookup_record_first. simpl.
  destruct (table !! k); [done|]. by destruct (String.eqb (fst d) k).
Qed.

Lemma keys_process_match lines st m :
  keys (process_match lines st m) =
  record_first (fst (declaration_of lines st m)) (snd (declaration_of lines st m)) (keys st).
Proof. unfold process_match. by rewrite keys_declare. Qed.

Lemma keys_process_matches lines ms st k :
  keys (process_matches lines ms st) !! k = first_line (keys st) (declarations lines ms st) k.
Proof.
  revert st. induction ms as [|m ms IH]; intros st.
  - simpl. unfold first_line. by destruct (keys st !! k).
  - change (process_matches lines (m :: ms) st)
      with (process_matches lines ms (process_match lines st m)).
    rewrite IH. cbn [declarations]. rewrite keys_process_match.
    apply first_line_cons.
Qed.

Lemma keys_process_line st x :
  keys (Legacy.process_line st x) =
  match Legacy.declaration_of st x with
  | Some d => record_first (fst d) (snd d) (keys st)
  | None => keys st
  end.
Proof.
  destruct x as [n line]. unfold Legacy.process_line, Legacy.declaration_of.
  destruct (starts_with _ _); [done|].
  destruct (match_at obj_pattern None line) as [[? ?]|]; [by rewrite keys_declare|].
  destruct (match_at Legacy.value_pattern None line) as [[? ?]|]; [by rewrite keys_declare|].
  done.
Qed.

Lemma keys_process_lines l st k :
  keys (fold_left Legacy.process_line l st) !! k =
  first_line (keys st) (Legacy.declarations l st) k.
Proof.
  revert st. induction l as [|x l IH]; intros st.
  - simpl. unfold first_line. by destruct (keys st !! k).
  - simpl. rewrite IH, keys_process_line.
    destruct (Legacy.declaration_of st x) as [d|]; [apply first_line_cons|done].
Qed.

Lemma increasing_initial : increasing (path_stack initial).
Proof. constructor. Qed.

Lemma increasing_process_lines l st :
  increasing (path_stack st) → increasing (path_stack (fold_left Legacy.process_line l st)).
Proof.
  revert st. induction l as [|x l IH]; intros st H; [done|].
  simpl. apply IH. by apply increasing_process_line.
Qed.

Lemma process_match_at lines st m level :
  indent_of (line_at lines (line_num m)) = level →
  process_match lines st m = declare level m (pop_closed level (path_stack st)) st.
Proof. intros <-. done. Qed.

Lemma closing_example_state lines pa la pb lb pc lc pd ld :
  indent_of (line_at lines la) = 0 →
  indent_of (line_at lines lb) = 2 →
  indent_of (line_at lines lc) = 4 →
  indent_of (line_at lines ld) = 2 →
  let st := process_matches lines (closing_example pa la pb lb pc lc pd ld) initial in
  path_stack st = [("d", 2); ("a", 0)]
  ∧ dom (keys st) = {["a"; "a.b"; "a.b.c"; "a.d"]}.
Proof.
  intros Ha Hb Hc Hd. unfold closing_example, process_matches. cbn [fold_left].
  rewrite (process_match_at lines initial (DeclMatch pa la "a" true) 0 Ha).
  rewrite (process_match_at lines _ (DeclMatch pb lb "b" true) 2 Hb).
  rewrite (process_match_at lines _ (DeclMatch pc lc "c" false) 4 Hc).
  rewrite (process_match_at lines _ (DeclMatch pd ld "d" true) 2 Hd). cbn.
  split; [done|]. rewrite !dom_record_first. set_solver.
Qed.

Lemma children_under_d lines children st :
  path_stack st = [("d", 2); ("a", 0)] →
  Forall (fun m => is_category m = false ∧ 2 < indent_of (line_at lines (line_num m))) children →
  path_stack (process_matches lines children st) = [("d", 2); ("a", 0)]
  ∧ dom (keys (process_matches lines children st)) =
    dom (keys st) ∪ list_to_set (map (fun m => "a.d." +:+ key m) children).
Proof.
  revert st. induction children as [|m children IH]; intros st Hst Hall.
  - simpl. split; [done|]. set_solver.
  - inversion Hall as [|? ? [Hleaf Hind] Hall']; subst.
    change (process_matches lines (m :: children) st)
      with (process_matches lines children (process_match lines st m)).
    assert (Hpop : pop_closed (indent_of (line_at lines (line_num m))) (path_stack st)
                   = [("d", 2); ("a", 0)]).
    { rewrite Hst. simpl. destruct (Nat.leb_spec (indent_of (line_at lines (line_num m))) 2); [lia|done]. }
    assert (Hstack : path_stack (process_match lines st m) = [("d", 2); ("a", 0)]).
    { unfold process_match. rewrite path_stack_declare, Hleaf. exact Hpop. }
    destruct (IH _ Hstack Hall') as [IH1 IH2]. split; [done|].
    rewrite IH2. unfold process_match. rewrite keys_declare, dom_record_first, Hpop.
    unfold full_key_of. rewrite Hleaf. cbn. set_solver.
Qed.

(** ** The matcher *)

Section Matcher.
Context {R : Type}.
Implicit Types (k : cont R) (p : ascii -> bool).

Lemma star_greedy_passes_group p prev s n g k x :
  star_greedy p prev s n g k = Some x → ∃ prev' s' n', k prev' s' n' g = Some x.
Proof.
  revert prev n. induction s as [|c s IH]; intros prev n; simpl; [eauto|].
  destruct (p c); [|eauto].
  destruct (star_greedy p (Some c) s (S n) g k) eqn:E; [|eauto].
  intros [= <-]. eauto.
Qed.

Lemma star_lazy_passes_group p prev s n g k x :
  star_lazy p prev s n g k = Some x → ∃ prev' s' n', k prev' s' n' g = Some x.
Proof.
  revert prev n. induction s as [|c s IH]; intros prev n; simpl.
  - destruct (k prev "" n g) eqn:E; [|done]. intros [= <-]. eauto.
  - destruct (k prev (String c s) n g) eqn:E; [intros [= <-]; eauto|].
    destruct (p c); [|done]. eauto.
Qed.

Lemma literal_passes_group l prev s n g k x :
  literal l prev s n g k = Some x → ∃ prev' s' n', k prev' s' n' g = Some x.
Proof.
  revert prev s n. induction l as [|a l IH]; intros prev s n; simpl; [eauto|].
  destruct s as [|c s]; [done|]. destruct (Ascii.eqb a c); [|done]. eauto.
Qed.

Lemma exec_passes_group r prev s n g k x :
  group_free r = true →
  exec r prev s n g k = Some x → ∃ prev' s' n', k prev' s' n' g = Some x.
Proof.
  revert prev s n g k. induction r; intros prev s n g k Hf; simpl in *; try done.
  - destruct s as [|c s]; [done|]. destruct (p c); [|done]. eauto.
  - apply literal_passes_group.
  - apply andb_prop in Hf as [H1 H2]. intros H.
    apply IHr1 in H as (prev' & s' & n' & H); [|done]. by apply IHr2 in H.
  - apply star_greedy_passes_group.
  - apply star_lazy_passes_group.
  - destruct (exec r prev s n g k) eqn:E; [|eauto].
    intros [= <-]. by apply IHr in E.
  - destruct prev as [c|]; [|eauto]. destruct (is_newline c); [eauto|done].
  - destruct s as [|c s]; [eauto|]. destruct (is_newline c); [eauto|done].
  - destruct prev as [c|]; [|eauto]. destruct (p c); [done|eauto].
Qed.

(** A greedy repetition whose continuation cannot start with a character of
    the class takes the longest run and never gives any of it back. *)
Lemma star_greedy_det p prev s n g k :
  (∀ pr c s' n' g', p c = true → k pr (String c s') n' g' = None) →
  star_greedy p prev s n g k =
  k (last_char prev (fst (span p s))) (snd (span p s))
    (n + String.length (fst (span p s))) g.
Proof.
  intros Hk. revert prev n. induction s as [|c s IH]; intros prev n; simpl.
  - by rewrite Nat.add_0_r.
  - destruct (p c) eqn:E.
    + rewrite IH. destruct (span p s) as [a b]. simpl.
      rewrite Nat.add_succ_r.
      destruct (k (last_char (Some c) a) b (S (n + String.length a)) g) eqn:E'; [done|].
      symmetry. (* the fallback is reached only when the long run failed *)
      destruct (k prev (String c s) n g) eqn:E''; [|done].
      by rewrite Hk in E''.
    + simpl. by rewrite Nat.add_0_r.
Qed.

Lemma literal_spec l prev s n g k :
  literal l prev s n g k =
  if starts_with l s
  then k (last_char prev l) (drop_chars (String.length l) s) (n + String.length l) g
  else None.
Proof.
  revert prev s n. induction l as [|a l IH]; intros prev s n; simpl.
  - rewrite Nat.add_0_r. by destruct s.
  - destruct s as [|c s]; [done|]. destruct (Ascii.eqb_spec a c) as [->|Hne]; [|done].
    simpl. rewrite IH. by rewrite Nat.add_succ_r.
Qed.

End Matcher.

Lemma append_cons c a b : String c a +:+ b = String c (a +:+ b).
Proof. reflexivity. Qed.

Lemma append_nil b : "" +:+ b = b.
Proof. reflexivity. Qed.

Lemma span_app p s : fst (span p s) +:+ snd (span p s) = s.
Proof.
  induction s as [|c s IH]; [done|]. simpl. destruct (p c); [|done].
  destruct (span p s) as [a b]. simpl in *. by rewrite append_cons, IH.
Qed.

Lemma span_all p s : all_chars p (fst (span p s)) = true.
Proof.
  induction s as [|c s IH]; [done|]. simpl. destruct (p c) eqn:E; [|done].
  destruct (span p s) as [a b]. simpl in *. by rewrite E.
Qed.

Lemma span_stop p s c s' : snd (span p s) = String c s' → p c = false.
Proof.
  induction s as [|d s IH]; [done|]. simpl. destruct (p d) eqn:E.
  - destruct (span p s) as [a b]. simpl in *. done.
  - simpl. by intros [= <- <-].
Qed.

Lemma span_prefix p a c s :
  all_chars p a = true → p c = false → span p (a +:+ String c s) = (a, String c s).
Proof.
  intros Ha Hc. induction a as [|d a IH].
  - rewrite append_nil. simpl. by rewrite Hc.
  - simpl in Ha. apply andb_prop in Ha as [Hd Ha]. rewrite append_cons. simpl.
    rewrite Hd, IH; done.
Qed.

Lemma take_app_length a b : take (String.length a) (a +:+ b) = a.
Proof.
  induction a as [|c a IH]; [rewrite append_nil; by destruct b|].
  rewrite append_cons. simpl. by rewrite IH.
Qed.

Lemma starts_with_app l s :
  starts_with l s = true → s = l +:+ drop_chars (String.length l) s.
Proof.
  revert s. induction l as [|a l IH]; intros s; simpl; [by destruct s|].
  destruct s as [|c s]; [done|]. destruct (Ascii.eqb_spec a c) as [->|]; [|done].
  simpl. intros H. by rewrite append_cons, <- IH.
Qed.

Lemma starts_with_prefix l s : starts_with l (l +:+ s) = true.
Proof.
  induction l as [|a l IH]; [done|]. rewrite append_cons. simpl.
  by rewrite Ascii.eqb_refl.
Qed.

Lemma drop_chars_app l s : drop_chars (String.length l) (l +:+ s) = s.
Proof.
  induction l as [|a l IH]; [rewrite append_nil; by destruct s|].
  rewrite append_cons. done.
Qed.

(** ** The call pattern *)

Lemma match_call_unfold key_re prev s :
  match_at (call_pattern key_re) prev s =
  match prev with
  | Some c =>
      if is_word c then None
      else literal "t(" prev s 0 None
             (fun p1 s1 n1 g1 => star_greedy is_space p1 s1 n1 g1 (from_quote key_re))
  | None => literal "t(" prev s 0 None
              (fun p1 s1 n1 g1 => star_greedy is_space p1 s1 n1 g1 (from_quote key_re))
  end.
Proof. reflexivity. Qed.

Lemma space_not_quote c : is_space c = true → is_quote c = false.
Proof. destruct c as [[] [] [] [] [] [] [] []]; vm_compute; congruence. Qed.

Lemma key_char_not_quote c : is_key_char c = true → is_quote c = false.
Proof. destruct c as [[] [] [] [] [] [] [] []]; vm_compute; congruence. Qed.

Lemma quote_not_key_char c : is_quote c = true → is_key_char c = false.
Proof. destruct c as [[] [] [] [] [] [] [] []]; vm_compute; congruence. Qed.

Lemma from_quote_needs_quote key_re pr c s n g :
  is_quote c = false → from_quote key_re pr (String c s) n g = None.
Proof. intros H. unfold from_quote. by rewrite H. Qed.

Lemma after_key_needs_quote pr c s n g :
  is_quote c = false → after_key pr (String c s) n g = None.
Proof. intros H. unfold after_key, call_rest. cbn [seq exec]. by rewrite H. Qed.

Lemma after_key_empty pr n g : after_key pr "" n g = None.
Proof. reflexivity. Qed.

Lemma after_key_group pr s n a x : after_key pr s n (Some a) = Some x → snd x = a.
Proof.
  intros H. apply exec_passes_group in H as (? & ? & ? & H); [|done].
  by inversion H.
Qed.

Lemma key_group_lit key pr s n g :
  exec (Group (Lit key)) pr s n g after_key =
  if starts_with key s
  then after_key (last_char pr key) (drop_chars (String.length key) s)
                 (n + String.length key) (Some key)
  else None.
Proof.
  cbn [exec]. rewrite literal_spec. destruct (starts_with key s) eqn:E; [|done].
  replace (n + String.length key - n) with (String.length key) by lia.
  rewrite (starts_with_app _ _ E) at 2. by rewrite take_app_length.
Qed.

Lemma key_group_plus pr s n g :
  exec (Group (Plus is_key_char)) pr s n g after_key =
  match fst (span is_key_char s) with
  | EmptyString => None
  | a => after_key (last_char pr a) (snd (span is_key_char s)) (n + String.length a) (Some a)
  end.
Proof.
  unfold Plus. cbn [exec]. destruct s as [|c s]; [done|]. simpl span.
  destruct (is_key_char c) eqn:E; [|done].
  rewrite star_greedy_det.
  - pose proof (span_app is_key_char s) as Happ.
    destruct (span is_key_char s) as [a b]. simpl in *.
    rewrite <- Happ. simpl.
    replace (S (n + String.length a) - n) with (S (String.length a)) by lia.
    replace (n + S (String.length a)) with (S (n + String.length a)) by lia.
    simpl. by rewrite take_app_length.
  - intros pr' c' s' n' g' Hc. apply after_key_needs_quote. by apply key_char_not_quote.
Qed.

Lemma keep_after_key k pr s n a :
  keep k (after_key pr s n (Some a)) = if String.eqb a k then after_key pr s n (Some a) else None.
Proof.
  destruct (after_key pr s n (Some a)) as [[n' g']|] eqn:E; simpl.
  - apply after_key_group in E. simpl in E. subst. by destruct (String.eqb a k).
  - by destruct (String.eqb a k).
Qed.

(** At one position the per-key pattern matches exactly when the general one
    does with that key as its group, and the two matches have the same extent. *)
Lemma from_quote_keep k pr s n g :
  k ≠ "" → all_chars is_key_char k = true →
  from_quote (Lit k) pr s n g = keep k (from_quote (Plus is_key_char) pr s n g).
Proof.
  intros Hne Hall. unfold from_quote. destruct s as [|q s]; [done|].
  destruct (is_quote q); [|done].
  rewrite key_group_lit, key_group_plus.
  destruct (starts_with k s) eqn:Hpre.
  - apply starts_with_app in Hpre. revert Hpre.
    generalize (drop_chars (String.length k) s) as b. intros b ->.
    destruct b as [|c b'].
    + (* nothing after the key: no closing quote *)
      rewrite after_key_empty.
      destruct (fst (span is_key_char (k +:+ ""))) as [|c a] eqn:Ha; [done|].
      rewrite keep_after_key. destruct (String.eqb_spec (String c a) k) as [Heq|]; [|done].
      pose proof (span_app is_key_char (k +:+ "")) as Happ. rewrite Ha, Heq in Happ.
      apply String.app_inj in Happ. rewrite Happ.
      by rewrite after_key_empty.
    + destruct (is_quote c) eqn:Hq.
      * rewrite span_prefix by (by try apply quote_not_key_char).
        simpl. destruct k as [|c0 k0]; [done|].
        by rewrite keep_after_key, String.eqb_refl.
      * rewrite after_key_needs_quote by done.
        destruct (fst (span is_key_char (k +:+ String c b'))) as [|c1 a] eqn:Ha; [done|].
        rewrite keep_after_key. destruct (String.eqb_spec (String c1 a) k) as [Heq|]; [|done].
        pose proof (span_app is_key_char (k +:+ String c b')) as Happ. rewrite Ha, Heq in Happ.
        apply String.app_inj in Happ. rewrite Happ.
        by rewrite after_key_needs_quote.
  - destruct (fst (span is_key_char s)) as [|c a] eqn:Ha; [done|].
    rewrite keep_after_key. destruct (String.eqb_spec (String c a) k) as [Heq|]; [|done].
    pose proof (span_app is_key_char s) as Happ. rewrite Ha, Heq in Happ.
    rewrite <- Happ, starts_with_prefix in Hpre. done.
Qed.

Lemma keep_literal k l pr s n g (k1 k2 : cont (nat * string)) :
  (∀ pr s n g, k1 pr s n g = keep k (k2 pr s n g)) →
  literal l pr s n g k1 = keep k (literal l pr s n g k2).
Proof. intros H. rewrite !literal_spec. destruct (starts_with l s); [apply H|done]. Qed.

Lemma call_of_keep k prev s :
  k ≠ "" → all_chars is_key_char k = true →
  match_at (call_of k) prev s = keep k (match_at any_call prev s).
Proof.
  intros Hne Hall. unfold call_of, any_call. rewrite !match_call_unfold.
  assert (H : literal "t(" prev s 0 None
                (fun p1 s1 n1 g1 => star_greedy is_space p1 s1 n1 g1 (from_quote (Lit k)))
              = keep k (literal "t(" prev s 0 None
                (fun p1 s1 n1 g1 => star_greedy is_space p1 s1 n1 g1
                                      (from_quote (Plus is_key_char))))).
  { apply keep_literal. intros pr s' n g.
    rewrite !star_greedy_det
      by (intros; apply from_quote_needs_quote; by apply space_not_quote).
    by apply from_quote_keep. }
  destruct prev as [c|]; [|done]. by destruct (is_word c).
Qed.

(** ** Scanning a text *)

Lemma finditer_from_match r prev pos skip s m :
  In m (finditer_from r prev pos skip s) →
  ∃ i, m_start m = pos + i
       ∧ match_at r (prev_at prev s i) (drop_chars i s) = Some (m_len m, m_group m).
Proof.
  revert prev pos skip. induction s as [|c s IH]; intros prev pos skip; [done|].
  assert (Hnext : ∀ k, In m (finditer_from r (Some c) (S pos) k s) →
            ∃ i, m_start m = pos + i
                 ∧ match_at r (prev_at prev (String c s) i) (drop_chars i (String c s))
                   = Some (m_len m, m_group m)).
  { intros k H. apply IH in H as (i & Hi & Hm). exists (S i). split; [lia|].
    simpl. by destruct i. }
  simpl. destruct skip as [|k]; [|apply Hnext].
  destruct (match_at r prev (String c s)) as [[n g]|] eqn:E; [|apply Hnext].
  intros [<-|H]; [|by eapply Hnext].
  exists 0. simpl. split; [lia|done].
Qed.

Lemma finditer_match r content m :
  In m (finditer r content) →
  match_at r (char_before content (m_start m)) (drop_chars (m_start m) content)
  = Some (m_len m, m_group m).
Proof.
  intros H. apply finditer_from_match in H as (i & Hi & Hm).
  simpl in Hi. subst i. exact Hm.
Qed.

Lemma match_call_standalone key_re prev s x :
  match_at (call_pattern key_re) prev s = Some x →
  match prev with Some c => is_word c = false | None => True end
  ∧ starts_with "t(" s = true.
Proof.
  rewrite match_call_unfold, literal_spec.
  destruct prev as [c|]; [destruct (is_word c); [done|]|];
    (destruct (starts_with "t(" s); [done|done]).
Qed.

Lemma match_any_call_group prev s n g :
  match_at any_call prev s = Some (n, g) →
  g ≠ "" ∧ all_chars is_key_char g = true.
Proof.
  unfold any_call. rewrite match_call_unfold, literal_spec.
  assert (H : ∀ pr s' n',
             star_greedy is_space pr s' n' None (from_quote (Plus is_key_char)) = Some (n, g) →
             g ≠ "" ∧ all_chars is_key_char g = true).
  { intros pr s' n'. rewrite star_greedy_det
      by (intros; apply from_quote_needs_quote; by apply space_not_quote).
    unfold from_quote. destruct (snd (span is_space s')) as [|q t]; [done|].
    destruct (is_quote q); [|done]. rewrite key_group_plus.
    pose proof (span_all is_key_char t) as Hall.
    destruct (fst (span is_key_char t)) as [|c a]; [done|].
    intros E. apply after_key_group in E. simpl in E. by subst g. }
  destruct prev as [c|]; [destruct (is_word c); [done|]|];
    (destruct (starts_with "t(" s); [apply H|done]).
Qed.

(** When no match of [r] starts inside another, the matches of a pattern that
    accepts exactly the matches of [r] with group [k] are those of [r] with
    group [k]. *)
Lemma finditer_from_keep r r' k s prev pos (skip skip' : nat) :
  (∀ prev s, match_at r' prev s = keep k (match_at r prev s)) →
  (skip' ≤ skip)%nat →
  no_nesting_from r prev skip s = true →
  finditer_from r' prev pos skip' s =
  List.filter (fun m => String.eqb (m_group m) k) (finditer_from r prev pos skip s).
Proof.
  intros Hk. revert prev pos skip skip'.
  induction s as [|c s IH]; intros prev pos skip skip' Hle Hn; [done|].
  simpl in *. specialize (Hk prev (String c s)).
  destruct skip as [|j].
  - assert (skip' = 0) as -> by lia.
    rewrite Hk. destruct (match_at r prev (String c s)) as [[n g]|]; simpl.
    + destruct (String.eqb g k); simpl.
      * f_equal. by apply IH.
      * apply IH; [lia|done].
    + by apply IH.
  - destruct (match_at r prev (String c s)) as [[n g]|] eqn:E; [done|].
    simpl in Hk. destruct skip' as [|j'].
    + rewrite Hk. apply IH; [lia|done].
    + apply IH; [lia|done].
Qed.

Lemma locations_call_of k search_dir file_path content :
  k ≠ "" → all_chars is_key_char k = true →
  no_nesting any_call (strip_comments content) = true →
  locations (call_of k) search_dir file_path content =
  map (fun m => (relative_to search_dir file_path,
                 line_of (strip_comments content) (m_start m)))
      (List.filter (fun m => String.eqb (m_group m) k)
                   (finditer any_call (strip_comments content))).
Proof.
  intros Hne Hall Hn. unfold locations. fold (strip_comments content). f_equal.
  apply finditer_from_keep; [|done|done].
  intros prev s. by apply call_of_keep.
Qed.

Lemma lookup_add_location (d : gmap string (list (string * nat))) k' loc k :
  default [] (add_location d k' loc !! k) =
  default [] (d !! k) ++ (if String.eqb k' k then [loc] else []).
Proof.
  unfold add_location. destruct (String.eqb_spec k' k) as [->|Hne].
  - by rewrite lookup_insert_eq.
  - rewrite lookup_insert_ne by done. by rewrite app_nil_r.
Qed.

Lemma lookup_index_matches pattern search_dir file_path content
    (d : gmap string (list (string * nat))) k :
  default [] (index_matches pattern search_dir file_path content d !! k) =
  default [] (d !! k)
  ++ map (fun m => (relative_to search_dir file_path,
                    line_of (strip_comments content) (m_start m)))
         (List.filter (fun m => String.eqb (m_group m) k)
                      (finditer pattern (strip_comments content))).
Proof.
  unfold index_matches. fold (strip_comments content).
  generalize (finditer pattern (strip_comments content)). intros ms. revert d.
  induction ms as [|m ms IH]; intros d; simpl; [by rewrite app_nil_r|].
  rewrite IH, lookup_add_location.
  destruct (String.eqb (m_group m) k); simpl; [by rewrite <- app_assoc|by rewrite app_nil_r].
Qed.

Lemma in_scanned fs search_dir file_path content :
  In (file_path, Text content) (walk fs search_dir) →
  contains "i18n/" file_path = false →
  In (file_path, content) (scanned fs search_dir).
Proof.
  intros Hin Hc. unfold scanned. apply in_flat_map.
  exists (file_path, Text content). split; [done|]. simpl. rewrite Hc. by left.
Qed.

Lemma scan_agree k search_dir (l : filesystem) acc1 acc2 :
  k ≠ "" → all_chars is_key_char k = true →
  (∀ file_path content, In (file_path, Text content) l →
     contains "i18n/" file_path = false →
     no_nesting any_call (strip_comments content) = true) →
  fst acc1 = default [] (fst acc2 !! k) →
  fst (fold_left (usage_in_file (call_of k) search_dir) l acc1) =
  default [] (fst (fold_left (calls_in_file search_dir) l acc2) !! k).
Proof.
  intros Hne Hall. revert acc1 acc2.
  induction l as [|[file_path f] l IH]; intros [u w] [d w'] Hn Hacc; [done|].
  simpl fold_left. apply IH; [intros; eapply Hn; [by right|done]|].
  simpl in Hacc. unfold usage_in_file, calls_in_file.
  destruct (contains "i18n/" file_path) eqn:Hc; [done|].
  destruct f as [content|err]; [|done]. simpl.
  rewrite lookup_index_matches, <- Hacc. f_equal.
  apply locations_call_of; [done|done|]. eapply Hn; [by left|done].
Qed.

Lemma lookup_merge_calls (a b : gmap string (list (string * nat))) k :
  default [] (merge_calls a b !! k) = default [] (a !! k) ++ default [] (b !! k).
Proof.
  unfold merge_calls. rewrite lookup_union_with.
  destruct (a !! k), (b !! k); simpl; by rewrite ?app_nil_r.
Qed.

Lemma lookup_merge_special fs search_dir acc special_file k :
  default [] (fst (merge_special fs search_dir acc special_file) !! k) =
  default [] (fst acc !! k)
  ++ default [] (fst (extract_label_keys_from_file fs
                        (search_dir +:+ "/" +:+ special_file) search_dir) !! k).
Proof.
  destruct acc as [d w]. unfold merge_special, extract_label_keys_from_file.
  destruct (fs_lookup fs (search_dir +:+ "/" +:+ special_file)) as [[content|err]|]; simpl.
  - apply lookup_merge_calls.
  - apply lookup_merge_calls.
  - by rewrite lookup_empty, app_nil_r.
Qed.

Lemma lookup_find_all search_dir fs k :
  default [] (fst (find_all_i18n_calls search_dir fs) !! k) =
  default [] (fst (direct_calls search_dir fs) !! k) ++ label_locations fs search_dir k.
Proof.
  unfold find_all_i18n_calls, label_locations, special_files. simpl.
  rewrite !lookup_merge_special. by rewrite app_nil_r, app_assoc.
Qed.

(** ** The reconciler *)

Lemma elem_of_sorted (l : list string) k : k ∈ sorted l ↔ k ∈ l.
Proof. unfold sorted. by rewrite merge_sort_Permutation. Qed.

Lemma in_all_keys (X : gset string) k : In k (sorted (elements X)) ↔ k ∈ X.
Proof. by rewrite <- list_elem_of_In, elem_of_sorted, elem_of_elements. Qed.

Lemma main_returned fs r w :
  main fs = Returned r w →
  ∃ enk enc zhk zhc tyk w1 w2 w3,
    extract_keys_from_locale fs EN_FILE = Returned (enk, enc) w1
    ∧ extract_keys_from_locale fs ZH_FILE = Returned (zhk, zhc) w2
    ∧ extract_keys_from_types fs TYPES_FILE = Returned tyk w3
    ∧ r = fst (reconcile fs enk enc zhk zhc tyk)
    ∧ w = w1 ++ w2 ++ w3 ++ snd (reconcile fs enk enc zhk zhc tyk).
Proof.
  unfold main, mbind, outcome_bind.
  destruct (extract_keys_from_locale fs EN_FILE) as [[enk enc] w1|]; [|done].
  destruct (extract_keys_from_locale fs ZH_FILE) as [[zhk zhc] w2|]; [|done].
  destruct (extract_keys_from_types fs TYPES_FILE) as [tyk w3|]; [|done].
  destruct (reconcile fs enk enc zhk zhc tyk) as [res ws] eqn:E.
  intros [= <- <-]. exists enk, enc, zhk, zhc, tyk, w1, w2, w3. by rewrite E.
Qed.

Lemma reconcile_fields fs enk enc zhk zhc tyk :
  let r := fst (reconcile fs enk enc zhk zhc tyk) in
  en_keys r = enk ∧ zh_keys r = zhk ∧ types_keys r = tyk
  ∧ all_categories r = enc ∪ zhc
  ∧ all_keys r = sorted (elements (dom enk ∪ dom zhk ∪ dom tyk))
  ∧ filtered_keys r =
    List.filter (fun k => negb (bool_decide (k ∈ all_categories r))) (all_keys r)
  ∧ all_calls r = fst (find_all_i18n_calls FRONTEND_DIR fs)
  ∧ missing_keys r = dom (all_calls r) ∖ list_to_set (all_keys r)
  ∧ label_key_usage r = fst (fold_left (label_usage_step fs) special_files (∅, []))
  ∧ unused_keys r =
    fst (fold_left (unused_step fs (label_key_usage r)) (filtered_keys r) ([], [])).
Proof.
  unfold reconcile.
  destruct (find_all_i18n_calls FRONTEND_DIR fs) as [calls w1].
  destruct (fold_left (label_usage_step fs) special_files (∅, [])) as [used w2].
  destruct (fold_left (unused_step fs used) _ ([], [])) as [unused w3] eqn:E.
  simpl. rewrite E. repeat split.
Qed.

Lemma in_unused fs used l acc k :
  In k (fst (fold_left (unused_step fs used) l acc)) ↔
  In k (fst acc)
  ∨ (In k l ∧ fst (find_i18n_usage k FRONTEND_DIR fs) = [] ∧ k ∉ used).
Proof.
  revert acc. induction l as [|x l IH]; intros [u w]; simpl; [tauto|].
  rewrite IH. unfold unused_step.
  destruct (find_i18n_usage x FRONTEND_DIR fs) as [usages w'] eqn:E.
  destruct usages as [|loc usages]; simpl.
  - destruct (decide (x ∈ used)) as [Hin|Hnot].
    + rewrite (bool_decide_eq_true_2 _ Hin). simpl. split; [tauto|].
      intros [H|[[<-|H] H']]; [tauto| |tauto]. exfalso. tauto.
    + rewrite (bool_decide_eq_false_2 _ Hnot). simpl. rewrite in_app_iff. simpl.
      split.
      * intros [[H|[<-|[]]]|H]; [tauto| |tauto]. right. rewrite E. tauto.
      * intros [H|[[<-|H] H']]; tauto.
  - split; [tauto|]. intros [H|[[<-|H] H']]; [tauto| |tauto].
    rewrite E in H'. simpl in H'. destruct H' as [H' _]. discriminate.
Qed.

Lemma in_label_usage fs k :
  k ∈ fst (fold_left (label_usage_step fs) special_files (∅, [])) ↔
  ∃ special_file, In special_file special_files
    ∧ k ∈ dom (fst (extract_label_keys_from_file fs
                      (FRONTEND_DIR +:+ "/" +:+ special_file) FRONTEND_DIR)).
Proof.
  assert (Hstep : ∀ acc sf,
            fst (label_usage_step fs acc sf) =
            fst acc ∪ dom (fst (extract_label_keys_from_file fs
                                  (FRONTEND_DIR +:+ "/" +:+ sf) FRONTEND_DIR))).
  { intros [used w] sf. unfold label_usage_step, extract_label_keys_from_file.
    destruct (fs_lookup fs (FRONTEND_DIR +:+ "/" +:+ sf)) as [[c|e]|]; simpl; [done|done|].
    rewrite dom_empty_L. set_solver. }
  unfold special_files. cbn [fold_left]. rewrite !Hstep. cbn [fst].
  split.
  - intros H. apply elem_of_union in H as [H|H].
    + apply elem_of_union in H as [H|H]; [set_solver|].
      eexists. split; [by left|done].
    + eexists. split; [right; by left|done].
  - intros (sf & [<-|[<-|[]]] & H); set_solver.
Qed.

Lemma categories_in_table fs file_path table cats w :
  extract_keys_from_locale fs file_path = Returned (table, cats) w → cats ⊆ dom table.
Proof.
  unfold extract_keys_from_locale.
  destruct (fs_lookup fs file_path) as [[content|err]|]; [|done|].
  - intros [= <- <- _]. apply (covered_process_matches _ _ _ covered_initial).
  - intros [= <- <- _]. done.
Qed.

(** ** Line numbers *)

Lemma is_newline_eqb c : is_newline c = Ascii.eqb c newline.
Proof. destruct c as [[] [] [] [] [] [] [] []]; reflexivity. Qed.

Lemma line_count_newlines s : line_count s = S (count_char newline s).
Proof.
  unfold line_count. induction s as [|c s IH]; [done|].
  simpl. rewrite <- is_newline_eqb. destruct (is_newline c); simpl; [by rewrite IH|].
  destruct (split_lines s); simpl in *; lia.
Qed.

Lemma star_lazy_extent {R} p prev s n g (k : cont R) x :
  star_lazy p prev s n g k = Some x →
  ∃ i prev', all_chars p (take i s) = true ∧ k prev' (drop_chars i s) (n + i) g = Some x.
Proof.
  revert prev n. induction s as [|c s IH]; intros prev n; simpl.
  - destruct (k prev "" n g) eqn:E; [|done]. intros [= <-].
    exists 0, prev. by rewrite Nat.add_0_r.
  - destruct (k prev (String c s) n g) eqn:E.
    + intros [= <-]. exists 0, prev. by rewrite Nat.add_0_r.
    + destruct (p c) eqn:Hp; [|done]. intros H.
      apply IH in H as (i & prev' & Hall & H). exists (S i), prev'. simpl.
      rewrite Hp, Hall. by rewrite Nat.add_succ_r.
Qed.

Lemma all_dot_no_newline i t :
  all_chars dot (take i t) = true → count_char newline (take i t) = 0.
Proof.
  revert t. induction i as [|i IH]; intros [|c t]; simpl; try done.
  intros H. apply andb_prop in H as [Hc H]. rewrite (IH _ H).
  unfold dot in Hc. rewrite is_newline_eqb in Hc. by destruct (Ascii.eqb c newline).
Qed.

(** a match of the line-comment pattern lies within one line *)
Lemma line_comment_extent prev s n g :
  match_at line_comment prev s = Some (n, g) → count_char newline (take n s) = 0.
Proof.
  unfold match_at, line_comment. cbn [seq exec]. rewrite literal_spec.
  destruct (starts_with "//" s) eqn:E; [|done].
  apply starts_with_app in E. revert E.
  generalize (drop_chars (String.length "//") s). intros t -> H.
  apply star_lazy_extent in H as (i & prev' & Hall & H).
  apply all_dot_no_newline in Hall.
  change ("//" +:+ t) with (String "/" (String "/" t)).
  cbn [exec] in H.
  destruct (drop_chars i t) as [|c t']; [|destruct (is_newline c); [|done]];
    injection H as <- _; simpl; exact Hall.
Qed.

Lemma re_sub_from_newlines r :
  (∀ prev s n g, match_at r prev s = Some (n, g) → count_char newline (take n s) = 0) →
  ∀ s prev skip,
    count_char newline (take skip s) = 0 →
    count_char newline (re_sub_from r prev skip s) = count_char newline s.
Proof.
  intros Hr. induction s as [|c s IH]; intros prev skip Hskip; [done|].
  simpl. destruct skip as [|k].
  - destruct (match_at r prev (String c s)) as [[[|j] g]|] eqn:E.
    + simpl. f_equal. by apply IH.
    + apply Hr in E. simpl in E. rewrite IH by lia. lia.
    + simpl. f_equal. by apply IH.
  - simpl in Hskip. rewrite IH by lia. lia.
Qed.

(** removing line comments keeps every newline *)
Lemma line_comments_keep_lines content :
  line_count (re_sub line_comment content) = line_count content.
Proof.
  rewrite !line_count_newlines. f_equal. unfold re_sub.
  apply re_sub_from_newlines; [apply line_comment_extent|done].
Qed.

(** With a blank line before it, a declaration's match starts on the blank
    line, since the leading whitespace of the pattern runs across newlines: the
    line number and the indentation are then those of the blank line. *)
Lemma blank_line_detaches_declaration :
  all_matches blank_line_text value_pattern
  = [DeclMatch 0 1 "a" true; DeclMatch 5 2 "b" false]
  ∧ keys (extract_from blank_line_text value_pattern) !! "b" = Some 2
  ∧ keys (extract_from blank_line_text value_pattern) !! "a.b" = None.
Proof. repeat split; vm_compute; reflexivity. Qed.

(** ** Document order *)














(** *** The older extractor *)

Lemma legacy_declaration_line st n line d :
  Legacy.declaration_of st (n, line) = Some d → snd d = n.
Proof.
  unfold Legacy.declaration_of. destruct (starts_with _ _); [done|].
  destruct (match_at obj_pattern None line) as [[? ?]|]; [by intros [= <-]|].
  destruct (match_at Legacy.value_pattern None line) as [[? ?]|]; [by intros [= <-]|done].
Qed.



Lemma seq_strictly_ascending start len : StronglySorted lt (List.seq start len).
Proof.
  revert start. induction len as [|len IH]; intros start; simpl; constructor; [done|].
  apply Forall_forall. intros x Hx. apply list_elem_of_In, in_seq in Hx. lia.
Qed.



(** * The claims of the specification *)

(** C1: before a matched declaration is processed, exactly the stack entries
    whose recorded indentation is greater than or equal to the indentation of
    the match's line are popped (the stack after the iteration is the entries
    of smaller indentation, below the match's own entry if it is a category).
    Consequently, after [a: {] at indent 0, [b: {] at indent 2, [c: 'x'] at
    indent 4 and [d: {] at indent 2, every leaf declared deeper than [d] is
    recorded under [a.d.], and no key under [a.b.d.] exists.  The older
    line-by-line extractor pops by the same rule. *)
Theorem C1_indentation_closing :
  (∀ (lines : list string) (ms : list decl_match) (m : decl_match),
      let st := process_matches lines ms initial in
      let level := indent_of (line_at lines (line_num m)) in
      path_stack (process_match lines st m) =
      (if is_category m then [(key m, level)] else [])
      ++ List.filter (fun e => (snd e <? level)%nat) (path_stack st))
  ∧ (∀ (lines : list string) (pa la pb lb pc lc pd ld : nat) (children : list decl_match),
      indent_of (line_at lines la) = 0 →
      indent_of (line_at lines lb) = 2 →
      indent_of (line_at lines lc) = 4 →
      indent_of (line_at lines ld) = 2 →
      Forall (fun m => is_category m = false
                       ∧ 2 < indent_of (line_at lines (line_num m))) children →
      let st := process_matches lines
                  (closing_example pa la pb lb pc lc pd ld ++ children) initial in
      dom (keys st) = {["a"; "a.b"; "a.b.c"; "a.d"]}
                      ∪ list_to_set (map (fun m => "a.d." +:+ key m) children)
      ∧ ∀ k : string, "a.b.d." +:+ k ∉ dom (keys st))
  ∧ (∀ (numbered : list (nat * string)) (line_num : nat) (line : string),
      let st := fold_left Legacy.process_line numbered initial in
      let level := indent_of line in
      starts_with "//" (Legacy.strip line) = false →
      ∃ pushed, path_stack (Legacy.process_line st (line_num, line)) =
                pushed ++ List.filter (fun e => (snd e <? level)%nat) (path_stack st)
                ∧ ∀ e, e ∈ pushed → snd e = level).
Proof.
  split; [|split].
  - intros lines ms m st level. unfold process_match. rewrite path_stack_declare.
    fold level. rewrite pop_closed_filter
      by (apply increasing_process_matches, increasing_initial).
    by destruct (is_category m).
  - intros lines pa la pb lb pc lc pd ld children Ha Hb Hc Hd Hall st.
    assert (Hdom : dom (keys st) = {["a"; "a.b"; "a.b.c"; "a.d"]}
                      ∪ list_to_set (map (fun m => "a.d." +:+ key m) children)).
    { subst st. unfold process_matches. rewrite fold_left_app.
      destruct (closing_example_state lines pa la pb lb pc lc pd ld Ha Hb Hc Hd) as [Hs Hk].
      destruct (children_under_d lines children _ Hs Hall) as [_ Hk'].
      unfold process_matches in *. rewrite Hk'. by rewrite Hk. }
    split; [done|]. intros k. rewrite Hdom. intros Hin.
    apply elem_of_union in Hin as [Hin|Hin].
    + set_unfold in Hin. destruct Hin as [[[H|H]|H]|H]; discriminate H.
    + apply elem_of_list_to_set, list_elem_of_fmap in Hin as [m [H _]]. discriminate H.
  - intros numbered n line st level Hc. unfold Legacy.process_line. rewrite Hc. fold level.
    assert (Hinc : increasing (path_stack st))
      by (apply increasing_process_lines, increasing_initial).
    destruct (match_at obj_pattern None line) as [[? k]|].
    + exists [(k, level)]. rewrite path_stack_declare. simpl.
      rewrite pop_closed_filter by done. split; [done|].
      intros e He. apply list_elem_of_singleton in He. by subst.
    + destruct (match_at Legacy.value_pattern None line) as [[? k]|].
      * exists []. rewrite path_stack_declare. simpl.
        rewrite pop_closed_filter by done. split; [done|]. intros e He. inversion He.
      * exists []. simpl. rewrite pop_closed_filter by done. split; [done|].
        intros e He. inversion He.
Qed.

(** The example of C1 as a file: both extractors record [e] as [a.d.e]. *)
Lemma C1_indentation_closing_witness :
  dom (keys (extract_from closing_text value_pattern))
  = {["a"; "a.b"; "a.b.c"; "a.d"]} ∪ list_to_set ["a.d.e"]
  ∧ (∀ k : string, "a.b.d." +:+ k ∉ dom (keys (extract_from closing_text value_pattern)))
  ∧ keys (extract_from closing_text value_pattern) !! "a.d.e" = Some 6
  ∧ keys (Legacy.extract_from closing_text) !! "a.d.e" = Some 6.
Proof.
  assert (E : all_matches (re_sub block_comment (re_sub line_comment closing_text))
                value_pattern
              = closing_example 0 1 5 2 12 3 29 5 ++ [DeclMatch 36 6 "e" false])
    by (vm_compute; reflexivity).
  destruct C1_indentation_closing as (_ & H & _).
  specialize (H (split_lines closing_text) 0 1 5 2 12 3 29 5 [DeclMatch 36 6 "e" false]).
  unfold extract_from. rewrite E.
  destruct H as [H1 H2]; [reflexivity|reflexivity|reflexivity|reflexivity| |].
  - constructor; [|constructor]. split; [reflexivity|]. vm_compute. lia.
  - split; [exact H1|]. split; [exact H2|]. split; vm_compute; reflexivity.
Defined.

(** C2: the comment stripper does not keep the line count.  Removing line
    comments keeps every newline, for every text; removing a block comment
    deletes the newlines inside it.  On a text of three lines whose block
    comment spans lines 1 and 2 the stripped text has two lines, and the
    declaration on line 3 of the file is recorded at line 2. *)
Theorem C2_block_comment_joins_lines :
  (∀ content : string, line_count (re_sub line_comment content) = line_count content)
  ∧ line_count two_line_comment = 3
  ∧ strip_comments two_line_comment = "a: 'x', " +:+ nl +:+ "b: 'y',"
  ∧ line_count (strip_comments two_line_comment) = 2
  ∧ keys (extract_from two_line_comment value_pattern) !! "b" = Some 2.
Proof.
  split; [apply line_comments_keep_lines|]. repeat split; vm_compute; reflexivity.
Qed.

(** C3, as the specification states it, fails: a key that is declared only as
    a category and is referenced by a call is not in the all-keys set, yet it
    is not reported as missing. *)
Lemma C3_category_reference_not_missing :
  ∃ r w, main referenced_category = Returned r w
    ∧ ("a" ∈ dom (all_calls r))
    ∧ (¬ In "a" (filtered_keys r))
    ∧ ("a" ∉ missing_keys r)
    ∧ missing_keys r ≠ dom (all_calls r) ∖ list_to_set (filtered_keys r).
Proof.
  pose (r := fst (reconcile referenced_category
                    (keys (extract_from category_locale value_pattern))
                    (categories (extract_from category_locale value_pattern)) ∅ ∅ ∅)).
  exists r. eexists. split; [vm_compute; reflexivity|].
  assert (H1 : "a" ∈ dom (all_calls r)) by (apply (bool_decide_unpack _); vm_compute; exact I).
  assert (H2 : ¬ In "a" (filtered_keys r)) by (vm_compute; intros [H|[]]; discriminate).
  assert (H3 : "a" ∉ missing_keys r) by (apply (bool_decide_unpack _); vm_compute; exact I).
  clearbody r.
  split; [exact H1|]. split; [exact H2|]. split; [exact H3|].
  intros Heq. apply H3. rewrite Heq. apply elem_of_difference. split; [exact H1|].
  intros Hin. apply elem_of_list_to_set, list_elem_of_In in Hin. by apply H2.
Qed.

(** C3, amended: the missing-key set is the set of keys of the UsageIndex
    minus the union of the keys of the two locale tables and the type table,
    categories included; a key declared as a category in a locale file is
    therefore never reported as missing. *)
Theorem C3_missing_keys (fs : filesystem) (r : reconciliation) (w : list string) :
  main fs = Returned r w →
  all_calls r = fst (find_all_i18n_calls FRONTEND_DIR fs)
  ∧ missing_keys r =
    dom (all_calls r) ∖ (dom (en_keys r) ∪ dom (zh_keys r) ∪ dom (types_keys r))
  ∧ (∀ k : string, k ∈ all_categories r → k ∉ missing_keys r).
Proof.
  intros H. apply main_returned in H
    as (enk & enc & zhk & zhc & tyk & w1 & w2 & w3 & Hen & Hzh & Hty & -> & _).
  destruct (reconcile_fields fs enk enc zhk zhc tyk)
    as (-> & -> & -> & Hcat & Hall & _ & Hcalls & Hmiss & _).
  assert (Hset : list_to_set (all_keys (fst (reconcile fs enk enc zhk zhc tyk)))
                 = dom enk ∪ dom zhk ∪ dom tyk :> gset string).
  { rewrite Hall. apply set_eq. intros k.
    by rewrite elem_of_list_to_set, elem_of_sorted, elem_of_elements. }
  split; [done|]. rewrite Hmiss, Hset. split; [done|].
  intros k Hk. rewrite Hcat in Hk.
  apply categories_in_table in Hen. apply categories_in_table in Hzh.
  set_solver.
Qed.

Lemma C3_missing_keys_witness :
  ∃ r w, main referenced_category = Returned r w
    ∧ all_calls r = fst (find_all_i18n_calls FRONTEND_DIR referenced_category)
    ∧ missing_keys r =
      dom (all_calls r) ∖ (dom (en_keys r) ∪ dom (zh_keys r) ∪ dom (types_keys r))
    ∧ (∀ k : string, k ∈ all_categories r → k ∉ missing_keys r).
Proof.
  pose (r := fst (reconcile referenced_category
                    (keys (extract_from category_locale value_pattern))
                    (categories (extract_from category_locale value_pattern)) ∅ ∅ ∅)).
  exists r. eexists.
  assert (H : main referenced_category = Returned r _) by (vm_compute; reflexivity).
  split; [exact H|]. exact (C3_missing_keys referenced_category r _ H).
Defined.

(** C4: a key that a locale file declares as a category is in none of the
    result sets: not among the reported keys ([filtered_keys], the union of the
    tables without the categories), not among the missing keys and not among
    the unused keys, whatever the other files declare. *)
Theorem C4_categories_excluded (fs : filesystem) (r : reconciliation) (w : list string)
    (k : string) :
  main fs = Returned r w →
  declared_category fs EN_FILE k ∨ declared_category fs ZH_FILE k →
  (¬ In k (filtered_keys r)) ∧ (k ∉ missing_keys r) ∧ (¬ In k (unused_keys r)).
Proof.
  intros H Hdecl. apply main_returned in H
    as (enk & enc & zhk & zhc & tyk & w1 & w2 & w3 & Hen & Hzh & Hty & -> & _).
  destruct (reconcile_fields fs enk enc zhk zhc tyk)
    as (_ & _ & _ & Hcat & Hall & Hfil & _ & Hmiss & _ & Hun).
  assert (Hk : k ∈ enc ∪ zhc).
  { unfold extract_keys_from_locale in Hen, Hzh.
    destruct Hdecl as [(c & Hc & Hin)|(c & Hc & Hin)].
    - rewrite Hc in Hen. inversion Hen; subst. set_solver.
    - rewrite Hc in Hzh. inversion Hzh; subst. set_solver. }
  assert (Hnot : ¬ In k (filtered_keys (fst (reconcile fs enk enc zhk zhc tyk)))).
  { rewrite Hfil, Hcat. intros Hin. apply filter_In in Hin as [_ Hin].
    by rewrite (bool_decide_eq_true_2 _ Hk) in Hin. }
  split; [exact Hnot|]. split.
  - rewrite Hmiss, Hall. intros Hin. apply elem_of_difference in Hin as [_ Hin].
    apply Hin. rewrite elem_of_list_to_set, elem_of_sorted, elem_of_elements.
    apply categories_in_table in Hen. apply categories_in_table in Hzh. set_solver.
  - rewrite Hun. intros Hin. apply in_unused in Hin as [[]|[Hin _]]. by apply Hnot.
Qed.

(** [a] is a category in the English file and a leaf in the Chinese one. *)
Lemma C4_categories_excluded_witness :
  keys (extract_from leaf_locale value_pattern) !! "a" = Some 2
  ∧ ∃ r w, main inconsistent_locales = Returned r w
      ∧ (¬ In "a" (filtered_keys r)) ∧ ("a" ∉ missing_keys r) ∧ (¬ In "a" (unused_keys r)).
Proof.
  split; [vm_compute; reflexivity|].
  pose (r := fst (reconcile inconsistent_locales
                    (keys (extract_from category_locale value_pattern))
                    (categories (extract_from category_locale value_pattern))
                    (keys (extract_from leaf_locale value_pattern))
                    (categories (extract_from leaf_locale value_pattern))
                    ∅)).
  exists r. eexists.
  assert (H : main inconsistent_locales = Returned r _) by (vm_compute; reflexivity).
  split; [exact H|].
  apply (C4_categories_excluded inconsistent_locales r _ "a" H).
  left. exists category_locale. split; [reflexivity|].
  apply (bool_decide_unpack _). vm_compute. exact I.
Defined.

(** C5: a reported key is in the unused-key set exactly when the scan for it
    finds no call and the key is not among those the [labelKey] properties of
    the special files name. *)
Theorem C5_unused_keys (fs : filesystem) (r : reconciliation) (w : list string)
    (k : string) :
  main fs = Returned r w →
  In k (filtered_keys r) →
  (In k (unused_keys r) ↔
   fst (find_i18n_usage k FRONTEND_DIR fs) = [] ∧ k ∉ label_key_usage r)
  ∧ (k ∈ label_key_usage r ↔
     ∃ special_file, In special_file special_files
       ∧ k ∈ dom (fst (extract_label_keys_from_file fs
                         (FRONTEND_DIR +:+ "/" +:+ special_file) FRONTEND_DIR))).
Proof.
  intros H Hin. apply main_returned in H
    as (enk & enc & zhk & zhc & tyk & w1 & w2 & w3 & Hen & Hzh & Hty & -> & _).
  destruct (reconcile_fields fs enk enc zhk zhc tyk)
    as (_ & _ & _ & _ & _ & _ & _ & _ & Hlab & Hun).
  split.
  - rewrite Hun, in_unused. simpl. tauto.
  - rewrite Hlab. apply in_label_usage.
Qed.

Lemma C5_unused_keys_witness :
  ∃ r w, main one_unused = Returned r w
    ∧ In "b" (filtered_keys r)
    ∧ unused_keys r = ["b"]
    ∧ (In "b" (unused_keys r) ↔
       fst (find_i18n_usage "b" FRONTEND_DIR one_unused) = [] ∧ "b" ∉ label_key_usage r)
    ∧ ("b" ∈ label_key_usage r ↔
       ∃ special_file, In special_file special_files
         ∧ "b" ∈ dom (fst (extract_label_keys_from_file one_unused
                             (FRONTEND_DIR +:+ "/" +:+ special_file) FRONTEND_DIR))).
Proof.
  pose (r := fst (reconcile one_unused
                    (keys (extract_from two_leaves_locale value_pattern))
                    (categories (extract_from two_leaves_locale value_pattern))
                    ∅ ∅ ∅)).
  exists r. eexists.
  assert (H : main one_unused = Returned r _) by (vm_compute; reflexivity).
  assert (Hin : In "b" (filtered_keys r)) by (vm_compute; right; left; reflexivity).
  split; [exact H|]. split; [exact Hin|]. split; [vm_compute; reflexivity|].
  exact (C5_unused_keys one_unused r _ "b" H Hin).
Defined.



(** C7: both scanners record a call only at an occurrence of [t(] that no word
    character precedes: no match starts at a position whose preceding
    character is a word character, every match starts with [t(], and the key
    the global scan captures is a non-empty run of the characters
    [a-zA-Z0-9._-].  Calls through [createElement], [closest] or [emit] give
    no usage. *)
Theorem C7_call_needs_standalone_t :
  (∀ (key_re : re) (content : string) (pos : nat) (c : ascii) (m : rmatch),
      char_before content pos = Some c → is_word c = true →
      In m (finditer (call_pattern key_re) content) → m_start m ≠ pos)
  ∧ (∀ (key_re : re) (content : string) (m : rmatch),
      In m (finditer (call_pattern key_re) content) →
      starts_with "t(" (drop_chars (m_start m) content) = true)
  ∧ (∀ (content : string) (m : rmatch),
      In m (finditer any_call content) →
      m_group m ≠ "" ∧ all_chars is_key_char (m_group m) = true)
  ∧ fst (find_all_i18n_calls FRONTEND_DIR other_functions) = ∅
  ∧ fst (find_i18n_usage "x" FRONTEND_DIR other_functions) = [].
Proof.
  split; [|split; [|split; [|split]]].
  - intros key_re content pos c m Hc Hw Hin Heq.
    apply finditer_match, match_call_standalone in Hin as [Hin _].
    rewrite Heq, Hc in Hin. congruence.
  - intros key_re content m Hin.
    by apply finditer_match, match_call_standalone in Hin as [_ Hin].
  - intros content m Hin. apply finditer_match in Hin.
    by apply match_any_call_group in Hin.
  - vm_compute. reflexivity.
  - vm_compute. reflexivity.
Qed.

(** In [at('k') t('k')] only the second call is found. *)
Lemma C7_call_needs_standalone_t_witness :
  finditer any_call "at('k') t('k')" = [RMatch 8 6 "k"]
  ∧ m_start (RMatch 8 6 "k") ≠ 1
  ∧ starts_with "t(" (drop_chars (m_start (RMatch 8 6 "k")) "at('k') t('k')") = true
  ∧ m_group (RMatch 8 6 "k") ≠ "" ∧ all_chars is_key_char (m_group (RMatch 8 6 "k")) = true.
Proof.
  assert (Hin : In (RMatch 8 6 "k") (finditer any_call "at('k') t('k')"))
    by (vm_compute; left; reflexivity).
  destruct C7_call_needs_standalone_t as (H1 & H2 & H3 & _).
  split; [vm_compute; reflexivity|]. split; [|split].
  - apply (H1 (Plus is_key_char) "at('k') t('k')" 1 "a"%char); [reflexivity|reflexivity|exact Hin].
  - apply (H2 (Plus is_key_char)). exact Hin.
  - apply H3 with (content := "at('k') t('k')"). exact Hin.
Defined.

(** C8, as the specification states it, fails: a key that only a [labelKey]
    property names has a location in the global scan's index and none in the
    per-key scan. *)
Lemma C8_label_reference_only_in_global_scan :
  ¬ (∀ loc : string * nat,
       In loc (fst (find_i18n_usage "filter.title" FRONTEND_DIR label_only)) ↔
       In loc (default [] (fst (find_all_i18n_calls FRONTEND_DIR label_only)
                            !! "filter.title"))).
Proof.
  intros H. specialize (H ("composables/filter/useFilterFields.ts", 1)).
  destruct H as [_ H].
  assert (Hin : In ("composables/filter/useFilterFields.ts", 1)
                   (default [] (fst (find_all_i18n_calls FRONTEND_DIR label_only)
                                  !! "filter.title")))
    by (vm_compute; left; reflexivity).
  apply H in Hin. vm_compute in Hin. exact Hin.
Qed.

(** A call inside another call's argument list is found by the per-key scan
    and stepped over by the global one, whose match of the outer call ends at
    the inner call's parenthesis. *)
Lemma nested_call_scans_differ :
  fst (find_i18n_usage "b" FRONTEND_DIR nested_call) = [("App.vue", 1)]
  ∧ fst (find_all_i18n_calls FRONTEND_DIR nested_call) !! "b" = None
  ∧ forallb (fun e => no_nesting any_call (strip_comments (snd e)))
            (scanned nested_call FRONTEND_DIR) = false.
Proof. repeat split; vm_compute; reflexivity. Qed.

(** C8, amended: for a non-empty key over [a-zA-Z0-9._-] and a source tree in
    which no call begins inside another call, the per-key scan returns exactly
    the locations the global scan records for the key from direct calls, in
    the same order; the global scan's entry for the key is that list followed
    by the locations of the key's [labelKey] references in the special
    files. *)
Theorem C8_scans_agree_on_direct_calls (fs : filesystem) (search_dir k : string) :
  k ≠ "" → all_chars is_key_char k = true →
  forallb (fun e => no_nesting any_call (strip_comments (snd e)))
          (scanned fs search_dir) = true →
  fst (find_i18n_usage k search_dir fs)
  = default [] (fst (direct_calls search_dir fs) !! k)
  ∧ default [] (fst (find_all_i18n_calls search_dir fs) !! k)
    = fst (find_i18n_usage k search_dir fs) ++ label_locations fs search_dir k.
Proof.
  intros Hne Hall Hn.
  assert (H : fst (find_i18n_usage k search_dir fs)
              = default [] (fst (direct_calls search_dir fs) !! k)).
  { unfold find_i18n_usage, direct_calls. apply scan_agree; [done|done| |done].
    intros file_path content Hin Hc.
    rewrite forallb_forall in Hn.
    apply (Hn (file_path, content)). by apply in_scanned. }
  split; [exact H|]. by rewrite lookup_find_all, H.
Qed.

Lemma C8_scans_agree_on_direct_calls_witness :
  fst (find_i18n_usage "filter.title" FRONTEND_DIR call_and_label) = [("App.vue", 1)]
  ∧ fst (find_i18n_usage "filter.title" FRONTEND_DIR call_and_label)
    = default [] (fst (direct_calls FRONTEND_DIR call_and_label) !! "filter.title")
  ∧ default [] (fst (find_all_i18n_calls FRONTEND_DIR call_and_label) !! "filter.title")
    = fst (find_i18n_usage "filter.title" FRONTEND_DIR call_and_label)
      ++ label_locations call_and_label FRONTEND_DIR "filter.title".
Proof.
  split; [vm_compute; reflexivity|].
  apply C8_scans_agree_on_direct_calls; [discriminate|reflexivity|vm_compute; reflexivity].
Defined.

(** C9: for a declaration or type file that does not exist, extraction returns
    empty tables and prints the not-found warning without raising; [main]
    returns whenever none of the three files fails to be read, and a file that
    does not exist contributes no key to the reconciliation. *)
Theorem C9_missing_artifact :
  (∀ (fs : filesystem) (file_path : string),
      fs_lookup fs file_path = None →
      extract_keys_from_locale fs file_path = Returned (∅, ∅) [not_found file_path]
      ∧ extract_keys_from_types fs file_path = Returned ∅ [not_found file_path])
  ∧ (∀ fs : filesystem,
      (∀ (file_path err : string),
          In file_path [EN_FILE; ZH_FILE; TYPES_FILE] →
          fs_lookup fs file_path ≠ Some (Unreadable err)) →
      ∃ r w, main fs = Returned r w)
  ∧ (∀ (fs : filesystem) (r : reconciliation) (w : list string),
      main fs = Returned r w →
      (fs_lookup fs EN_FILE = None → en_keys r = ∅ ∧ In (not_found EN_FILE) w)
      ∧ (fs_lookup fs ZH_FILE = None → zh_keys r = ∅ ∧ In (not_found ZH_FILE) w)
      ∧ (fs_lookup fs TYPES_FILE = None → types_keys r = ∅ ∧ In (not_found TYPES_FILE) w)
      ∧ (∀ k : string,
            In k (all_keys r) ↔
            k ∈ dom (en_keys r) ∪ dom (zh_keys r) ∪ dom (types_keys r))).
Proof.
  split; [|split].
  - intros fs file_path H. unfold extract_keys_from_locale, extract_keys_from_types.
    by rewrite H.
  - intros fs H. unfold main, mbind, outcome_bind,
      extract_keys_from_locale, extract_keys_from_types.
    destruct (fs_lookup fs EN_FILE) as [[c1|e1]|] eqn:E1;
      [|exfalso; apply (H EN_FILE e1); [by left|done]|];
      (destruct (fs_lookup fs ZH_FILE) as [[c2|e2]|] eqn:E2;
        [|exfalso; apply (H ZH_FILE e2); [right; by left|done]|];
        (destruct (fs_lookup fs TYPES_FILE) as [[c3|e3]|] eqn:E3;
          [|exfalso; apply (H TYPES_FILE e3); [right; right; by left|done]|];
          match goal with
          | |- context [reconcile ?a ?b ?c ?d ?e ?f] =>
              destruct (reconcile a b c d e f) as [res ws]
          end; eauto)).
  - intros fs r w H. apply main_returned in H
      as (enk & enc & zhk & zhc & tyk & w1 & w2 & w3 & Hen & Hzh & Hty & -> & ->).
    destruct (reconcile_fields fs enk enc zhk zhc tyk)
      as (-> & -> & -> & _ & Hall & _).
    unfold extract_keys_from_locale in Hen, Hzh. unfold extract_keys_from_types in Hty.
    split; [|split; [|split]].
    + intros E. rewrite E in Hen. inversion Hen; subst. split; [done|].
      apply in_app_iff. left. by left.
    + intros E. rewrite E in Hzh. inversion Hzh; subst. split; [done|].
      apply in_app_iff. right. apply in_app_iff. left. by left.
    + intros E. rewrite E in Hty. inversion Hty; subst. split; [done|].
      apply in_app_iff. right. apply in_app_iff. right. apply in_app_iff. left. by left.
    + intros k. rewrite Hall. apply in_all_keys.
Qed.

(** With only the Chinese locale file present, the English and type tables
    are empty, two warnings are printed and the keys are the Chinese ones. *)
Lemma C9_missing_artifact_witness :
  (extract_keys_from_locale only_zh EN_FILE = Returned (∅, ∅) [not_found EN_FILE]
   ∧ extract_keys_from_types only_zh EN_FILE = Returned ∅ [not_found EN_FILE])
  ∧ ∃ r w, main only_zh = Returned r w
      ∧ (en_keys r = ∅ ∧ In (not_found EN_FILE) w)
      ∧ (types_keys r = ∅ ∧ In (not_found TYPES_FILE) w)
      ∧ all_keys r = ["a"]
      ∧ w = [not_found EN_FILE; not_found TYPES_FILE].
Proof.
  destruct C9_missing_artifact as (H1 & _ & H3).
  split; [apply H1; reflexivity|].
  pose (r := fst (reconcile only_zh ∅ ∅
                    (keys (extract_from leaf_locale value_pattern))
                    (categories (extract_from leaf_locale value_pattern)) ∅)).
  exists r. eexists.
  assert (H : main only_zh = Returned r _) by (vm_compute; reflexivity).
  destruct (H3 only_zh r _ H) as (Hen & _ & Hty & _).
  split; [exact H|]. split; [apply Hen; reflexivity|]. split; [apply Hty; reflexivity|].
  split; vm_compute; reflexivity.
Defined.

(** C10: whatever a locale extraction returns, every KeyPath in its CategorySet
    has a line number in its DeclarationTable; this holds for the older
    line-by-line extractor too. *)
Theorem C10_categories_in_table (fs : filesystem) (file_path : string)
    (table : gmap string nat) (cats : gset string) (w : list string) :
  extract_keys_from_locale fs file_path = Returned (table, cats) w
  ∨ Legacy.extract_keys_from_locale fs file_path = Returned (table, cats) w →
  cats ⊆ dom table.
Proof.
  unfold extract_keys_from_locale, Legacy.extract_keys_from_locale.
  destruct (fs_lookup fs file_path) as [[content|err]|].
  - intros [H|H]; inversion H; subst.
    + apply (covered_process_matches _ _ _ covered_initial).
    + apply covered_legacy.
  - intros [H|H]; discriminate.
  - intros [H|H]; inversion H; done.
Qed.

Lemma C10_categories_in_table_witness :
  categories (extract_from category_locale value_pattern) = {["a"]}
  ∧ categories (extract_from category_locale value_pattern)
    ⊆ dom (keys (extract_from category_locale value_pattern)).
Proof.
  split; [apply set_eq; intros k; vm_compute; tauto|].
  apply (C10_categories_in_table referenced_category EN_FILE _ _ []).
  left. reflexivity.
Defined.

(** * Further properties of the code *)

(** ** Declared keys are well nested *)

Lemma star_greedy_extent {R} p prev s n g (k : cont R) x :
  star_greedy p prev s n g k = Some x →
  ∃ i prev', all_chars p (take i s) = true ∧ k prev' (drop_chars i s) (n + i) g = Some x.
Proof.
  revert prev n. induction s as [|c s IH]; intros prev n; simpl.
  - intros H. exists 0, prev. by rewrite Nat.add_0_r.
  - destruct (p c) eqn:Hp.
    + destruct (star_greedy p (Some c) s (S n) g k) eqn:E.
      * intros [= <-]. apply IH in E as (i & prev' & Hall & H).
        exists (S i), prev'. simpl. rewrite Hp, Hall. by rewrite Nat.add_succ_r.
      * intros H. exists 0, prev. by rewrite Nat.add_0_r.
    + intros H. exists 0, prev. by rewrite Nat.add_0_r.
Qed.

Lemma identifier_group rest prev s n g0 x :
  group_free rest = true →
  exec identifier prev s n g0 (fun p' s' n' g' => exec rest p' s' n' g' report) = Some x →
  is_identifier (snd x) = true.
Proof.
  intros Hfree. unfold identifier. cbn [exec].
  destruct s as [|c s]; [done|]. destruct (is_ident_start c) eqn:Hc; [|done].
  intros H. apply star_greedy_extent in H as (i & prev' & Hall & H).
  apply exec_passes_group in H as (? & ? & ? & H); [|done].
  injection H as <-. cbn [snd default from_option].
  replace (S (n + i) - n) with (S i) by lia. cbn [take is_identifier].
  by rewrite Hc, Hall.
Qed.

Lemma declaration_group opener prev s n g :
  group_free opener = true →
  match_at (declaration opener) prev s = Some (n, g) → is_identifier g = true.
Proof.
  intros Hfree. unfold match_at, declaration. cbn [seq exec].
  assert (H : ∀ x, star_greedy is_space prev s 0 None
                 (fun prev' s' n' g' => exec identifier prev' s' n' g'
                    (fun prev'0 s'0 n'0 g'0 =>
                       star_greedy is_space prev'0 s'0 n'0 g'0
                         (fun prev'1 s'1 n'1 g'1 =>
                            literal ":" prev'1 s'1 n'1 g'1
                              (fun prev'2 s'2 n'2 g'2 =>
                                 star_greedy is_space prev'2 s'2 n'2 g'2
                                   (fun prev'3 s'3 n'3 g'3 =>
                                      exec opener prev'3 s'3 n'3 g'3 report)))))
               = Some x → is_identifier (snd x) = true).
  { intros x Hx. apply star_greedy_passes_group in Hx as (p' & s' & n' & Hx).
    apply (identifier_group (seq [Star is_space; Lit ":"; Star is_space; opener])
             p' s' n' None x); [simpl; by rewrite Hfree|exact Hx]. }
  destruct prev as [c|]; [destruct (is_newline c); [|done]|]; intros Hm;
    apply (H (n, g)); exact Hm.
Qed.

Lemma bare_declaration_group opener prev s n g :
  group_free opener = true →
  match_at (LegacyRest.bare_declaration opener) prev s = Some (n, g) →
  is_identifier g = true.
Proof.
  intros Hfree. unfold match_at, LegacyRest.bare_declaration. cbn [seq].
  change (exec (Cat Bol (Cat identifier
            (Cat (Star is_space) (Cat (Lit ":") (Cat (Star is_space) opener)))))
            prev s 0 None report)
    with (match prev with
          | None => exec identifier prev s 0 None
                      (fun p' s' n' g' =>
                         exec (seq [Star is_space; Lit ":"; Star is_space; opener])
                              p' s' n' g' report)
          | Some c => if is_newline c
                      then exec identifier prev s 0 None
                             (fun p' s' n' g' =>
                                exec (seq [Star is_space; Lit ":"; Star is_space; opener])
                                     p' s' n' g' report)
                      else None
          end).
  assert (Hf : group_free (seq [Star is_space; Lit ":"; Star is_space; opener]) = true)
    by (simpl; by rewrite Hfree).
  destruct prev as [c|]; [destruct (is_newline c); [|done]|]; intros Hm;
    apply (identifier_group _ _ _ _ _ (n, g) Hf Hm).
Qed.

Lemma well_nested_initial : well_nested initial.
Proof.
  split; [constructor|]. split.
  - intros t Ht Hs. apply suffix_nil_inv in Hs. done.
  - intros k Hk. simpl in Hk. set_solver.
Qed.

Lemma pop_closed_suffix level stack : pop_closed level stack `suffix_of` stack.
Proof.
  induction stack as [|[seg ind] below IH]; [done|].
  simpl. destruct (level <=? ind)%nat; [|done]. by apply suffix_cons_r.
Qed.

Lemma well_nested_key_mono st st' k :
  categories st ⊆ categories st' → dom (keys st) ⊆ dom (keys st') →
  well_nested_key st k → well_nested_key st' k.
Proof.
  intros Hc Hk (segs & x & -> & Hid & Hpar). exists segs, x.
  split; [done|]. split; [done|]. intros Hne. destruct (Hpar Hne). set_solver.
Qed.

Lemma chain_cons seg ind stack : chain ((seg, ind) :: stack) = chain stack ++ [seg].
Proof. reflexivity. Qed.

Lemma chain_nil_inv stack : chain stack = [] → stack = [].
Proof.
  destruct stack as [|[seg ind] stack]; [done|]. rewrite chain_cons.
  intros H. by apply app_eq_nil in H as [_ H].
Qed.

Lemma well_nested_close st t :
  t `suffix_of` path_stack st → well_nested st →
  well_nested (Extraction t (keys st) (categories st)).
Proof.
  intros Hs (Hid & Hopen & Hkeys). split; [|split]; simpl.
  - destruct Hs as [l Hl]. rewrite Hl in Hid. by apply Forall_app in Hid as [_ Hid].
  - intros u Hu Hsu. apply Hopen; [done|]. by etrans.
  - intros k Hk. by apply Hkeys.
Qed.

Lemma well_nested_declare level m st popped :
  popped `suffix_of` path_stack st → is_identifier (key m) = true →
  well_nested st → well_nested (declare level m popped st).
Proof.
  intros Hs Hm Hwn. pose proof Hwn as (Hid & Hopen & Hkeys).
  assert (Hidp : Forall (fun e => is_identifier (fst e) = true) popped).
  { destruct Hs as [l Hl]. rewrite Hl in Hid. by apply Forall_app in Hid as [_ Hid]. }
  assert (Hchain : Forall (fun s => is_identifier s = true) (chain popped)).
  { unfold chain. apply Forall_rev. by apply Forall_fmap. }
  assert (Hfull : full_key_of popped m = join "." (chain popped ++ [key m])).
  { unfold full_key_of. destruct (is_category m); [done|].
    destruct popped as [|e popped]; [done|done]. }
  assert (Hnew : well_nested_key st (full_key_of popped m)).
  { exists (chain popped), (key m). split; [done|]. split.
    - apply Forall_app. split; [done|]. by constructor.
    - intros Hne. apply Hopen; [|done]. intros ->. done. }
  assert (Hcat : categories st ⊆ categories (declare level m popped st))
    by (rewrite categories_declare; destruct (is_category m); set_solver).
  assert (Hdom : dom (keys st) ⊆ dom (keys (declare level m popped st)))
    by (rewrite keys_declare, dom_record_first; set_solver).
  split; [|split].
  - rewrite path_stack_declare. destruct (is_category m); [|done]. by constructor.
  - intros t Ht Hst. rewrite path_stack_declare in Hst.
    destruct (is_category m) eqn:Hc.
    + destruct t as [|e t]; [done|]. apply suffix_cons_inv in Hst as [->|Hst].
      * rewrite chain_cons, <- Hfull.
        rewrite categories_declare, keys_declare, dom_record_first, Hc. set_solver.
      * destruct (Hopen (e :: t) Ht); [by etrans|]. set_solver.
    + destruct (Hopen t Ht); [by etrans|]. set_solver.
  - intros k Hk. rewrite keys_declare, dom_record_first in Hk.
    apply elem_of_union in Hk as [Hk|Hk].
    + apply elem_of_singleton in Hk as ->.
      by apply (well_nested_key_mono st).
    + apply (well_nested_key_mono st); [done|done|]. by apply Hkeys.
Qed.

Lemma well_nested_process_matches lines ms st :
  Forall (fun m => is_identifier (key m) = true) ms →
  well_nested st → well_nested (process_matches lines ms st).
Proof.
  revert st. induction ms as [|m ms IH]; intros st Hms Hst; [done|].
  inversion Hms; subst.
  change (process_matches lines (m :: ms) st)
    with (process_matches lines ms (process_match lines st m)).
  apply IH; [done|]. unfold process_match.
  apply well_nested_declare; [apply pop_closed_suffix|done|done].
Qed.

Lemma in_insert_by_position x y l : In x (insert_by_position y l) → x = y ∨ In x l.
Proof.
  induction l as [|z l IH]; simpl; [intros [H|[]]; by left|].
  destruct (position y <=? position z)%nat; simpl.
  - intros [H|H]; [by left|by right].
  - intros [H|H]; [right; by left|]. apply IH in H as [H|H]; [by left|right; by right].
Qed.

Lemma in_sort_by_position x l : In x (sort_by_position l) → In x l.
Proof.
  induction l as [|y l IH]; simpl; [done|].
  intros H. apply in_insert_by_position in H as [->|H]; [by left|right; by apply IH].
Qed.

Lemma in_all_matches m content leaf :
  In m (all_matches content leaf) →
  ∃ (pattern : re) (rm : rmatch),
    (pattern = obj_pattern ∨ pattern = leaf)
    ∧ In rm (finditer pattern content)
    ∧ key m = m_group rm
    ∧ position m = m_start rm
    ∧ line_num m = line_of content (m_start rm).
Proof.
  intros H. apply in_sort_by_position, in_app_iff in H as [H|H];
    apply in_map_iff in H as (rm & <- & Hrm); eauto 10.
Qed.

Lemma all_matches_identifiers content opener :
  group_free opener = true →
  Forall (fun m => is_identifier (key m) = true) (all_matches content (declaration opener)).
Proof.
  intros Hfree. apply Forall_forall. intros m Hm. apply list_elem_of_In in Hm.
  apply in_all_matches in Hm as (pattern & rm & Hp & Hin & -> & _).
  apply finditer_match in Hin.
  destruct Hp as [->| ->]; by eapply declaration_group in Hin.
Qed.

Lemma well_nested_extract content opener :
  group_free opener = true → well_nested (extract_from content (declaration opener)).
Proof.
  intros Hfree. unfold extract_from.
  apply well_nested_process_matches; [by apply all_matches_identifiers|].
  apply well_nested_initial.
Qed.

Lemma well_nested_process_line st x :
  well_nested st → well_nested (Legacy.process_line st x).
Proof.
  intros H. destruct x as [n line]. unfold Legacy.process_line.
  destruct (starts_with _ _); [done|].
  destruct (match_at obj_pattern None line) as [[? k]|] eqn:E1.
  - apply declaration_group in E1; [|done].
    apply well_nested_declare; [apply pop_closed_suffix|done|done].
  - destruct (match_at Legacy.value_pattern None line) as [[? k]|] eqn:E2.
    + apply declaration_group in E2; [|done].
      apply well_nested_declare; [apply pop_closed_suffix|done|done].
    + apply well_nested_close; [apply pop_closed_suffix|done].
Qed.

Lemma well_nested_process_type_line st x :
  well_nested st → well_nested (LegacyRest.process_type_line st x).
Proof.
  intros H. destruct x as [n line]. unfold LegacyRest.process_type_line.
  destruct (match_at (LegacyRest.bare_declaration (Lit "{")) None _) as [[? k]|] eqn:E1.
  - apply bare_declaration_group in E1; [|done].
    apply well_nested_declare; [apply pop_closed_suffix|done|done].
  - destruct (match_at (LegacyRest.bare_declaration (Lit "string;")) None _)
      as [[? k]|] eqn:E2.
    + apply bare_declaration_group in E2; [|done].
      apply well_nested_declare; [apply pop_closed_suffix|done|done].
    + apply well_nested_close; [apply pop_closed_suffix|done].
Qed.

Lemma well_nested_fold (step : extraction → nat * string → extraction) l st :
  (∀ st x, well_nested st → well_nested (step st x)) →
  well_nested st → well_nested (fold_left step l st).
Proof.
  intros Hstep. revert st. induction l as [|x l IH]; intros st H; [done|].
  simpl. apply IH. by apply Hstep.
Qed.

(** X1: Every key of a locale table is a dot-join of identifiers, and a key
    with more than one segment has its parent (the key without its last
    segment) in the table, marked as a category: no nested key is recorded
    without the category that holds it.  This holds for the locale extractor
    of both analyzers, whatever the file holds. *)
Theorem declared_keys_well_nested (content k : string) :
  (k ∈ dom (keys (extract_from content value_pattern)) →
   well_nested_key (extract_from content value_pattern) k)
  ∧ (k ∈ dom (keys (Legacy.extract_from content)) →
     well_nested_key (Legacy.extract_from content) k).
Proof.
  split.
  - apply (well_nested_extract content (Chr is_quote)). done.
  - unfold Legacy.extract_from.
    apply (well_nested_fold Legacy.process_line); [apply well_nested_process_line|].
    apply well_nested_initial.
Qed.

Lemma declared_keys_well_nested_witness :
  "a.b" ∈ dom (keys (extract_from category_locale value_pattern))
  ∧ well_nested_key (extract_from category_locale value_pattern) "a.b"
  ∧ "a.b" ∈ dom (keys (Legacy.extract_from category_locale))
  ∧ well_nested_key (Legacy.extract_from category_locale) "a.b".
Proof.
  assert (H1 : "a.b" ∈ dom (keys (extract_from category_locale value_pattern)))
    by (apply (bool_decide_unpack _); vm_compute; exact I).
  assert (H2 : "a.b" ∈ dom (keys (Legacy.extract_from category_locale)))
    by (apply (bool_decide_unpack _); vm_compute; exact I).
  destruct (declared_keys_well_nested category_locale "a.b") as [W1 W2].
  split; [exact H1|]. split; [exact (W1 H1)|]. split; [exact H2|exact (W2 H2)].
Defined.


(** ** Line numbers stay inside the file *)

Lemma count_take_le a n s : (count_char a (take n s) ≤ count_char a s)%nat.
Proof.
  revert s. induction n as [|n IH]; intros [|c s]; simpl; try lia.
  specialize (IH s). lia.
Qed.

Lemma re_sub_from_newlines_le r prev skip s :
  (count_char newline (re_sub_from r prev skip s) ≤ count_char newline s)%nat.
Proof.
  revert prev skip. induction s as [|c s IH]; intros prev skip; [done|].
  simpl. destruct skip as [|k].
  - destruct (match_at r prev (String c s)) as [[[|j] g]|]; simpl.
    + specialize (IH (Some c) 0). lia.
    + specialize (IH (Some c) j). lia.
    + specialize (IH (Some c) 0). lia.
  - specialize (IH (Some c) k). lia.
Qed.

Lemma strip_comments_line_count_le content :
  (line_count (strip_comments content) ≤ line_count content)%nat.
Proof.
  rewrite !line_count_newlines. unfold strip_comments, re_sub.
  pose proof (re_sub_from_newlines_le block_comment None 0
                (re_sub_from line_comment None 0 content)).
  pose proof (re_sub_from_newlines_le line_comment None 0 content). lia.
Qed.

Lemma line_of_bounds content pos : (1 ≤ line_of content pos ≤ line_count content)%nat.
Proof.
  unfold line_of. rewrite line_count_newlines.
  pose proof (count_take_le newline pos content). lia.
Qed.

Lemma in_declarations lines ms st d :
  In d (declarations lines ms st) → ∃ m, In m ms ∧ snd d = line_num m.
Proof.
  revert st. induction ms as [|m ms IH]; intros st; simpl; [done|].
  intros [<-|H].
  - exists m. split; [by left|done].
  - apply IH in H as (m' & Hm & Hd). exists m'. split; [by right|done].
Qed.

Lemma first_line_empty_in ds k n :
  first_line ∅ ds k = Some n → ∃ d, In d ds ∧ snd d = n.
Proof.
  unfold first_line. rewrite lookup_empty.
  destruct (find _ ds) as [d|] eqn:E; [|done].
  intros [= <-]. apply find_some in E as [E _]. eauto.
Qed.

Lemma all_matches_line_bound content leaf m :
  In m (all_matches (strip_comments content) leaf) →
  (1 ≤ line_num m ≤ line_count content)%nat.
Proof.
  intros H. apply in_all_matches in H as (p & rm & _ & _ & _ & _ & ->).
  pose proof (line_of_bounds (strip_comments content) (m_start rm)).
  pose proof (strip_comments_line_count_le content). lia.
Qed.

Lemma in_legacy_declarations l st d :
  In d (Legacy.declarations l st) → ∃ line, In (snd d, line) l.
Proof.
  revert st. induction l as [|[n line] l IH]; intros st; [done|].
  cbn [Legacy.declarations].
  assert (Hrest : In d (Legacy.declarations l (Legacy.process_line st (n, line))) →
                  ∃ line0, In (snd d, line0) ((n, line) :: l)).
  { intros H. apply IH in H as [line0 H]. exists line0. by right. }
  destruct (Legacy.declaration_of st (n, line)) as [d0|] eqn:E; [|exact Hrest].
  intros [<-|H]; [|by apply Hrest].
  apply legacy_declaration_line in E. exists line. left. by rewrite E.
Qed.

Lemma in_enumerate n line lines :
  In (n, line) (Legacy.enumerate lines) → (1 ≤ n ≤ List.length lines)%nat.
Proof.
  unfold Legacy.enumerate. intros H. apply in_combine_l in H.
  apply in_seq in H. lia.
Qed.

(** X2: The line number a table records for a key is a line of the file:
    at least one and at most the number of lines.  In the newer extractor
    every match's line number is within the list of lines that is indexed to
    read the indentation, so the guard on that index never takes its empty
    branch; in the older extractor the number is that of a line read. *)
Theorem declared_lines_in_file :
  (∀ (content : string) (leaf : re) (k : string) (n : nat),
      keys (extract_from content leaf) !! k = Some n →
      (1 ≤ n ≤ line_count content)%nat)
  ∧ (∀ (content : string) (leaf : re) (m : decl_match),
      In m (all_matches (strip_comments content) leaf) →
      (1 ≤ line_num m ≤ List.length (split_lines content))%nat)
  ∧ (∀ (content k : string) (n : nat),
      keys (Legacy.extract_from content) !! k = Some n →
      (1 ≤ n ≤ List.length (Legacy.readlines content))%nat).
Proof.
  split; [|split].
  - intros content leaf k n H. unfold extract_from in H.
    rewrite keys_process_matches in H. apply first_line_empty_in in H as (d & Hd & <-).
    apply in_declarations in Hd as (m & Hm & ->).
    by apply (all_matches_line_bound content leaf).
  - intros content leaf m Hm. by apply all_matches_line_bound in Hm.
  - intros content k n H. unfold Legacy.extract_from in H.
    rewrite keys_process_lines in H. apply first_line_empty_in in H as (d & Hd & <-).
    apply in_legacy_declarations in Hd as [line Hd]. by apply in_enumerate in Hd.
Qed.

Lemma declared_lines_in_file_witness :
  keys (extract_from category_locale value_pattern) !! "a.b" = Some 3
  ∧ (1 ≤ 3 ≤ line_count category_locale)%nat.
Proof.
  assert (H : keys (extract_from category_locale value_pattern) !! "a.b" = Some 3)
    by (vm_compute; reflexivity).
  split; [exact H|].
  destruct declared_lines_in_file as [W _].
  exact (W category_locale value_pattern "a.b" 3 H).
Defined.


(** ** Depth of a key *)

Lemma count_char_append a s1 s2 :
  count_char a (s1 +:+ s2) = count_char a s1 + count_char a s2.
Proof.
  induction s1 as [|c s1 IH]; [done|]. rewrite append_cons. simpl. rewrite IH. lia.
Qed.

Lemma all_chars_append p s1 s2 :
  all_chars p (s1 +:+ s2) = all_chars p s1 && all_chars p s2.
Proof.
  induction s1 as [|c s1 IH]; [done|]. rewrite append_cons. simpl.
  rewrite IH. by rewrite andb_assoc.
Qed.

Lemma ident_char_not_dot c : is_ident_char c = true → Ascii.eqb c "." = false.
Proof. destruct c as [[] [] [] [] [] [] [] []]; vm_compute; congruence. Qed.

Lemma ident_start_is_char c : is_ident_start c = true → is_ident_char c = true.
Proof. destruct c as [[] [] [] [] [] [] [] []]; vm_compute; congruence. Qed.

Lemma ident_char_is_key_char c : is_ident_char c = true → is_key_char c = true.
Proof. destruct c as [[] [] [] [] [] [] [] []]; vm_compute; congruence. Qed.

Lemma identifier_chars s : is_identifier s = true → all_chars is_ident_char s = true.
Proof.
  destruct s as [|c s]; [done|]. simpl. intros H. apply andb_prop in H as [Hc Hs].
  by rewrite (ident_start_is_char c Hc), Hs.
Qed.

Lemma no_dot_in_ident_chars s : all_chars is_ident_char s = true → count_char "." s = 0.
Proof.
  induction s as [|c s IH]; [done|]. simpl. intros H. apply andb_prop in H as [Hc Hs].
  by rewrite (ident_char_not_dot c Hc), IH.
Qed.

Lemma key_chars_of_ident_chars s :
  all_chars is_ident_char s = true → all_chars is_key_char s = true.
Proof.
  induction s as [|c s IH]; [done|]. simpl. intros H. apply andb_prop in H as [Hc Hs].
  by rewrite (ident_char_is_key_char c Hc), IH.
Qed.

Lemma join_cons sep x y rest :
  join sep (x :: y :: rest) = x +:+ sep +:+ join sep (y :: rest).
Proof. reflexivity. Qed.

Lemma join_identifiers segs :
  segs ≠ [] → Forall (fun s => is_identifier s = true) segs →
  count_char "." (join "." segs) = List.length segs - 1
  ∧ all_chars is_key_char (join "." segs) = true
  ∧ join "." segs ≠ "".
Proof.
  intros Hne Hall. induction Hall as [|x segs Hx Hall IH]; [done|].
  pose proof (identifier_chars x Hx) as Hchars.
  destruct segs as [|y segs].
  - simpl. rewrite (no_dot_in_ident_chars x Hchars), (key_chars_of_ident_chars x Hchars).
    split; [done|]. split; [done|]. by destruct x.
  - destruct IH as (IH1 & IH2 & IH3); [done|].
    rewrite join_cons, !count_char_append, !all_chars_append, IH1, IH2.
    rewrite (no_dot_in_ident_chars x Hchars), (key_chars_of_ident_chars x Hchars).
    simpl. split; [lia|]. split; [done|]. by destruct x.
Qed.

Lemma contains_dot s : contains "." s = negb (count_char "." s =? 0)%nat.
Proof.
  induction s as [|c s IH]; [done|].
  change (contains "." (String c s)) with ((Ascii.eqb "." c && true) || contains "." s).
  change (count_char "." (String c s))
    with ((if Ascii.eqb c "." then 1 else 0) + count_char "." s).
  rewrite IH, (Ascii.eqb_sym "." c). by destruct (Ascii.eqb c ".").
Qed.

(** X3: A key is a top-level key exactly when its nesting depth is one, and
    the nesting depth of a dot-join of identifiers is the number of its
    segments. *)
Theorem depth_counts_segments :
  (∀ k : string, is_top_level_key k = true ↔ get_nesting_depth k = 1)
  ∧ (∀ segs : list string,
      segs ≠ [] → Forall (fun s => is_identifier s = true) segs →
      get_nesting_depth (join "." segs) = List.length segs).
Proof.
  split.
  - intros k. unfold is_top_level_key, get_nesting_depth. rewrite contains_dot, negb_involutive.
    rewrite Nat.eqb_eq. lia.
  - intros segs Hne Hall. unfold get_nesting_depth.
    destruct (join_identifiers segs Hne Hall) as (-> & _).
    destruct segs; [done|]. simpl. lia.
Qed.

Lemma depth_counts_segments_witness :
  get_nesting_depth (join "." ["settings"; "general"; "title"]) = 3.
Proof.
  destruct depth_counts_segments as [_ H].
  apply (H ["settings"; "general"; "title"]); [discriminate|].
  repeat constructor.
Defined.

(** ** Declared keys and the scanners *)

Lemma well_nested_key_scannable st k :
  well_nested_key st k → k ≠ "" ∧ all_chars is_key_char k = true.
Proof.
  intros (segs & x & -> & Hid & _).
  destruct (join_identifiers (segs ++ [x])) as (_ & H2 & H3); [by destruct segs|done|done].
Qed.

Lemma locale_table_scannable fs file_path table cats w k :
  extract_keys_from_locale fs file_path = Returned (table, cats) w →
  k ∈ dom table → k ≠ "" ∧ all_chars is_key_char k = true.
Proof.
  unfold extract_keys_from_locale.
  destruct (fs_lookup fs file_path) as [[content|err]|]; [|done|].
  - intros [= <- <- _] Hk. apply (well_nested_key_scannable (extract_from content value_pattern)).
    by apply (well_nested_extract content (Chr is_quote)).
  - intros [= <- <- _] Hk. set_solver.
Qed.

Lemma types_table_scannable fs file_path table w k :
  extract_keys_from_types fs file_path = Returned table w →
  k ∈ dom table → k ≠ "" ∧ all_chars is_key_char k = true.
Proof.
  unfold extract_keys_from_types.
  destruct (fs_lookup fs file_path) as [[content|err]|]; [|done|].
  - intros [= <- _] Hk.
    apply (well_nested_key_scannable (extract_from content type_value_pattern)).
    by apply (well_nested_extract content (Lit "string;")).
  - intros [= <- _] Hk. set_solver.
Qed.

(** X4: Every declared key of a run is non-empty and made of letters, digits,
    dots, underscores and hyphens only: the characters the global scan and
    the label scan accept in a key, so a call with a declared key is never
    out of their reach because of the key's characters. *)
Theorem declared_keys_scannable (fs : filesystem) (r : reconciliation) (w : list string)
    (k : string) :
  main fs = Returned r w → In k (all_keys r) →
  k ≠ "" ∧ all_chars is_key_char k = true.
Proof.
  intros H Hin. apply main_returned in H
    as (enk & enc & zhk & zhc & tyk & w1 & w2 & w3 & Hen & Hzh & Hty & -> & _).
  destruct (reconcile_fields fs enk enc zhk zhc tyk) as (_ & _ & _ & _ & Hall & _).
  rewrite Hall in Hin. apply in_all_keys in Hin.
  apply elem_of_union in Hin as [Hin|Hin]; [apply elem_of_union in Hin as [Hin|Hin]|].
  - exact (locale_table_scannable _ _ _ _ _ _ Hen Hin).
  - exact (locale_table_scannable _ _ _ _ _ _ Hzh Hin).
  - exact (types_table_scannable _ _ _ _ _ Hty Hin).
Qed.

Lemma declared_keys_scannable_witness :
  ∃ r w, main one_unused = Returned r w ∧ In "a" (all_keys r)
         ∧ "a" ≠ "" ∧ all_chars is_key_char "a" = true.
Proof.
  pose (r := english_only_run one_unused two_leaves_locale).
  exists r. eexists.
  assert (H : main one_unused = Returned r _) by (vm_compute; reflexivity).
  assert (Hin : In "a" (all_keys r)) by (vm_compute; left; reflexivity).
  split; [exact H|]. split; [exact Hin|].
  exact (declared_keys_scannable one_unused r _ "a" H Hin).
Defined.


(** ** The entries of the index of calls *)

Lemma plus_group p rest prev s n g0 x :
  group_free rest = true →
  exec (Group (Plus p)) prev s n g0 (fun p' s' n' g' => exec rest p' s' n' g' report) = Some x →
  snd x ≠ "" ∧ all_chars p (snd x) = true.
Proof.
  intros Hfree. unfold Plus. cbn [exec].
  destruct s as [|c s]; [done|]. destruct (p c) eqn:Hc; [|done].
  intros H. apply star_greedy_extent in H as (i & prev' & Hall & H).
  apply exec_passes_group in H as (? & ? & ? & H); [|done].
  injection H as <-. cbn [snd default from_option].
  replace (S (n + i) - n) with (S i) by lia. cbn [take all_chars].
  by rewrite Hc, Hall.
Qed.

Lemma match_label_group prev s n g :
  match_at label_pattern prev s = Some (n, g) →
  g ≠ "" ∧ all_chars is_key_char g = true.
Proof.
  unfold match_at, label_pattern. cbn [seq exec]. intros H.
  apply literal_passes_group in H as (p1 & s1 & n1 & H).
  apply star_greedy_passes_group in H as (p2 & s2 & n2 & H).
  apply literal_passes_group in H as (p3 & s3 & n3 & H).
  apply star_greedy_passes_group in H as (p4 & s4 & n4 & H).
  destruct s4 as [|q s5]; [done|]. destruct (is_quote q); [|done].
  apply (plus_group is_key_char (Chr is_quote) _ _ _ _ (n, g)) in H; [done|done].
Qed.

Lemma index_ok_empty : index_ok ∅.
Proof. intros k l H. by rewrite lookup_empty in H. Qed.

Lemma index_ok_add d k loc :
  k ≠ "" → all_chars is_key_char k = true → index_ok d → index_ok (add_location d k loc).
Proof.
  intros Hne Hall Hd k' l. unfold add_location.
  destruct (decide (k = k')) as [<-|Hk].
  - rewrite lookup_insert_eq. intros [= <-]. split; [|done].
    by destruct (default [] (d !! k)).
  - rewrite lookup_insert_ne by done. apply Hd.
Qed.

Lemma index_ok_matches pattern search_dir file_path content d :
  (∀ prev s n g, match_at pattern prev s = Some (n, g) →
                 g ≠ "" ∧ all_chars is_key_char g = true) →
  index_ok d → index_ok (index_matches pattern search_dir file_path content d).
Proof.
  intros Hp. unfold index_matches.
  assert (Hms : Forall (fun m => m_group m ≠ "" ∧ all_chars is_key_char (m_group m) = true)
                  (finditer pattern (re_sub block_comment (re_sub line_comment content)))).
  { apply Forall_forall. intros m Hm. apply list_elem_of_In, finditer_match in Hm.
    by apply Hp in Hm. }
  revert Hms d. generalize (finditer pattern (re_sub block_comment (re_sub line_comment content))).
  intros ms Hms. induction Hms as [|m ms [H1 H2] _ IH]; intros d Hd; [done|].
  simpl. apply IH. by apply index_ok_add.
Qed.

Lemma index_ok_merge a b : index_ok a → index_ok b → index_ok (merge_calls a b).
Proof.
  intros Ha Hb k l. unfold merge_calls. rewrite lookup_union_with.
  destruct (a !! k) as [la|] eqn:Ea, (b !! k) as [lb|] eqn:Eb; simpl; intros [= <-].
  - destruct (Ha k la Ea) as (Hl & Hk). split; [|done]. by destruct la.
  - by apply Ha.
  - by apply Hb.
Qed.

Lemma index_ok_label fs file_path search_dir :
  index_ok (fst (extract_label_keys_from_file fs file_path search_dir)).
Proof.
  unfold extract_label_keys_from_file.
  destruct (fs_lookup fs file_path) as [[content|err]|]; simpl;
    [|apply index_ok_empty|apply index_ok_empty].
  apply index_ok_matches; [apply match_label_group|apply index_ok_empty].
Qed.

Lemma index_ok_direct search_dir fs : index_ok (fst (direct_calls search_dir fs)).
Proof.
  unfold direct_calls. generalize (walk fs search_dir). intros l.
  assert (H : index_ok (fst ((∅, []) : gmap string (list (string * nat)) * list string)))
    by apply index_ok_empty.
  revert H. generalize ((∅, []) : gmap string (list (string * nat)) * list string).
  induction l as [|[file_path f] l IH]; intros [d w] Hd; [done|].
  simpl fold_left. apply IH. unfold calls_in_file.
  destruct (contains "i18n/" file_path); [done|]. destruct f as [content|err]; [|done].
  simpl. apply index_ok_matches; [apply match_any_call_group|done].
Qed.

Lemma fst_merge_special fs search_dir acc special_file :
  fst (merge_special fs search_dir acc special_file) =
  merge_calls (fst acc)
    (fst (extract_label_keys_from_file fs (search_dir +:+ "/" +:+ special_file) search_dir)).
Proof.
  destruct acc as [d w]. unfold merge_special.
  destruct (fs_lookup fs (search_dir +:+ "/" +:+ special_file)) as [f|] eqn:E.
  - by destruct (extract_label_keys_from_file fs _ search_dir).
  - unfold extract_label_keys_from_file. rewrite E. simpl. unfold merge_calls.
    apply map_eq. intros k. rewrite lookup_union_with, lookup_empty. by destruct (d !! k).
Qed.

Lemma index_ok_find_all search_dir fs :
  index_ok (fst (find_all_i18n_calls search_dir fs)).
Proof.
  unfold find_all_i18n_calls, special_files. cbn [fold_left].
  rewrite !fst_merge_special.
  apply index_ok_merge; [apply index_ok_merge|]; try apply index_ok_label.
  apply index_ok_direct.
Qed.

(** X5: Every entry of the index of calls has at least one location, and its
    key is non-empty and made of key characters only: the index never maps a
    key to an empty list. *)
Theorem usage_index_entries (search_dir : string) (fs : filesystem)
    (k : string) (l : list (string * nat)) :
  fst (find_all_i18n_calls search_dir fs) !! k = Some l →
  l ≠ [] ∧ k ≠ "" ∧ all_chars is_key_char k = true.
Proof. apply index_ok_find_all. Qed.

Lemma usage_index_entries_witness :
  ∃ l, fst (find_all_i18n_calls FRONTEND_DIR call_and_label) !! "filter.title" = Some l
       ∧ l ≠ [] ∧ "filter.title" ≠ "" ∧ all_chars is_key_char "filter.title" = true.
Proof.
  eexists. split; [vm_compute; reflexivity|].
  apply (usage_index_entries FRONTEND_DIR call_and_label "filter.title").
  vm_compute. reflexivity.
Defined.

Lemma dom_merge_calls a b : dom (merge_calls a b) = dom a ∪ dom b.
Proof.
  apply set_eq. intros k. rewrite elem_of_union, !elem_of_dom.
  unfold merge_calls. rewrite lookup_union_with.
  destruct (a !! k), (b !! k); simpl; split; intros H;
    try (destruct H as [H|H]); eauto; try (by destruct H).
Qed.

Lemma dom_find_all search_dir fs :
  dom (fst (find_all_i18n_calls search_dir fs)) =
  dom (fst (direct_calls search_dir fs))
  ∪ dom (fst (extract_label_keys_from_file fs
                (search_dir +:+ "/" +:+ "composables/rules/useRuleOptions.ts") search_dir))
  ∪ dom (fst (extract_label_keys_from_file fs
                (search_dir +:+ "/" +:+ "composables/filter/useFilterFields.ts") search_dir)).
Proof.
  unfold find_all_i18n_calls, special_files. cbn [fold_left].
  by rewrite !fst_merge_special, !dom_merge_calls.
Qed.

Lemma label_usage_dom fs :
  fst (fold_left (label_usage_step fs) special_files (∅, [])) =
  dom (fst (extract_label_keys_from_file fs
              (FRONTEND_DIR +:+ "/" +:+ "composables/rules/useRuleOptions.ts") FRONTEND_DIR))
  ∪ dom (fst (extract_label_keys_from_file fs
                (FRONTEND_DIR +:+ "/" +:+ "composables/filter/useFilterFields.ts")
                FRONTEND_DIR)).
Proof.
  apply set_eq. intros k. rewrite in_label_usage. unfold special_files. split.
  - intros (sf & [<-|[<-|[]]] & H); set_solver.
  - intros H. apply elem_of_union in H as [H|H].
    + eexists. split; [by left|done].
    + eexists. split; [right; by left|done].
Qed.

(** X6: The keys of the index of calls of a run are the keys found in direct
    calls together with the keys the label properties of the special files
    name: the set of label keys that the unused-key check builds separately
    is part of the index. *)
Theorem usage_index_domain (fs : filesystem) (r : reconciliation) (w : list string) :
  main fs = Returned r w →
  dom (all_calls r) = dom (fst (direct_calls FRONTEND_DIR fs)) ∪ label_key_usage r.
Proof.
  intros H. apply main_returned in H
    as (enk & enc & zhk & zhc & tyk & w1 & w2 & w3 & Hen & Hzh & Hty & -> & _).
  destruct (reconcile_fields fs enk enc zhk zhc tyk)
    as (_ & _ & _ & _ & _ & _ & -> & _ & -> & _).
  rewrite dom_find_all, label_usage_dom. set_solver.
Qed.

Lemma usage_index_domain_witness :
  ∃ r w, main call_and_label = Returned r w
         ∧ dom (all_calls r)
           = dom (fst (direct_calls FRONTEND_DIR call_and_label)) ∪ label_key_usage r.
Proof.
  pose (r := fst (reconcile call_and_label ∅ ∅ ∅ ∅ ∅)).
  exists r. eexists.
  assert (H : main call_and_label = Returned r _) by (vm_compute; reflexivity).
  split; [exact H|]. exact (usage_index_domain call_and_label r _ H).
Defined.

Lemma direct_entry_empty search_dir fs k :
  default [] (fst (direct_calls search_dir fs) !! k) = [] ↔
  k ∉ dom (fst (direct_calls search_dir fs)).
Proof.
  rewrite not_elem_of_dom.
  destruct (fst (direct_calls search_dir fs) !! k) as [l|] eqn:E; simpl; [|done].
  apply index_ok_direct in E as [E _]. split; [done|done].
Qed.

(** X7: When no call in the scanned files holds another call in its
    arguments, a reported key is unused exactly when the index of calls has
    no entry for it: the section of unused keys and the index agree. *)
Theorem unused_iff_absent_from_index (fs : filesystem) (r : reconciliation)
    (w : list string) (k : string) :
  main fs = Returned r w →
  forallb (fun e => no_nesting any_call (strip_comments (snd e)))
          (scanned fs FRONTEND_DIR) = true →
  In k (filtered_keys r) →
  (In k (unused_keys r) ↔ k ∉ dom (all_calls r)).
Proof.
  intros Hmain Hn Hin.
  assert (Hk : k ≠ "" ∧ all_chars is_key_char k = true).
  { pose proof Hmain as H. apply main_returned in H
      as (enk & enc & zhk & zhc & tyk & w1 & w2 & w3 & Hen & Hzh & Hty & -> & _).
    destruct (reconcile_fields fs enk enc zhk zhc tyk)
      as (_ & _ & _ & _ & Hall & Hfil & _).
    rewrite Hfil in Hin. apply filter_In in Hin as [Hin _].
    rewrite Hall in Hin. apply in_all_keys in Hin.
    apply elem_of_union in Hin as [Hin|Hin]; [apply elem_of_union in Hin as [Hin|Hin]|].
    - exact (locale_table_scannable _ _ _ _ _ _ Hen Hin).
    - exact (locale_table_scannable _ _ _ _ _ _ Hzh Hin).
    - exact (types_table_scannable _ _ _ _ _ Hty Hin). }
  destruct Hk as [Hne Hall].
  assert (Hscan : fst (find_i18n_usage k FRONTEND_DIR fs)
                  = default [] (fst (direct_calls FRONTEND_DIR fs) !! k)).
  { unfold find_i18n_usage, direct_calls. apply scan_agree; [done|done| |done].
    intros file_path content Hf Hc. rewrite forallb_forall in Hn.
    apply (Hn (file_path, content)). by apply in_scanned. }
  pose proof Hmain as H. apply main_returned in H
    as (enk & enc & zhk & zhc & tyk & w1 & w2 & w3 & Hen & Hzh & Hty & -> & _).
  destruct (reconcile_fields fs enk enc zhk zhc tyk)
    as (_ & _ & _ & _ & _ & _ & Hcalls & _ & Hlab & Hun).
  rewrite Hun, in_unused, Hscan, direct_entry_empty, Hcalls, dom_find_all, Hlab, label_usage_dom.
  simpl. split.
  - intros [[]|(_ & H1 & H2)]. set_solver.
  - intros H. right. split; [done|]. set_solver.
Qed.

Lemma unused_iff_absent_from_index_witness :
  ∃ r w, main one_unused = Returned r w
         ∧ In "b" (filtered_keys r)
         ∧ (In "b" (unused_keys r) ↔ "b" ∉ dom (all_calls r)).
Proof.
  pose (r := english_only_run one_unused two_leaves_locale).
  exists r. eexists.
  assert (H : main one_unused = Returned r _) by (vm_compute; reflexivity).
  assert (Hin : In "b" (filtered_keys r)) by (vm_compute; right; left; reflexivity).
  split; [exact H|]. split; [exact Hin|].
  apply (unused_iff_absent_from_index one_unused r _ "b" H); [|exact Hin].
  vm_compute. reflexivity.
Defined.


(** ** Which files a scan reads *)

Lemma filter_flat_map {A B} (P : B → bool) (f : A → list B) (l : list A) :
  List.filter P (flat_map f l) = flat_map (fun x => List.filter P (f x)) l.
Proof.
  induction l as [|x l IH]; [done|]. simpl. by rewrite List.filter_app, IH.
Qed.

Lemma filter_comm {A} (P Q : A → bool) (l : list A) :
  List.filter P (List.filter Q l) = List.filter Q (List.filter P l).
Proof.
  induction l as [|x l IH]; [done|]. simpl.
  destruct (P x) eqn:HP, (Q x) eqn:HQ; simpl; rewrite ?HP, ?HQ, ?IH; done.
Qed.

Lemma walk_filter (P : string * file → bool) fs search_dir :
  walk (List.filter P fs) search_dir = List.filter P (walk fs search_dir).
Proof.
  unfold walk. rewrite filter_flat_map. apply flat_map_ext. intros ext.
  unfold rglob. apply filter_comm.
Qed.

(** a loop over files gives the same result on the list without the files it
    passes over *)
Lemma fold_left_skip {A B} (step : A → B → A) (keep : B → bool) (l : list B) (acc : A) :
  (∀ a e, keep e = false → step a e = a) →
  fold_left step (List.filter keep l) acc = fold_left step l acc.
Proof.
  intros Hskip. revert acc. induction l as [|e l IH]; intros acc; [done|].
  simpl. destruct (keep e) eqn:E; simpl; [apply IH|]. rewrite IH. by rewrite Hskip.
Qed.

Lemma usage_in_file_i18n pattern search_dir acc e :
  outside_i18n e = false → usage_in_file pattern search_dir acc e = acc.
Proof.
  destruct acc as [u w], e as [p f]. unfold outside_i18n, usage_in_file. simpl.
  by destruct (contains "i18n/" p).
Qed.

Lemma calls_in_file_i18n search_dir acc e :
  outside_i18n e = false → calls_in_file search_dir acc e = acc.
Proof.
  destruct acc as [u w], e as [p f]. unfold outside_i18n, calls_in_file. simpl.
  by destruct (contains "i18n/" p).
Qed.

(** X8: Neither scan reads a file whose path holds the declaration directory:
    removing all such files from the tree changes neither the locations nor
    the warnings of the per-key scan and of the scan of direct calls. *)
Theorem declaration_directory_not_scanned (k search_dir : string) (fs : filesystem) :
  find_i18n_usage k search_dir (List.filter outside_i18n fs) = find_i18n_usage k search_dir fs
  ∧ direct_calls search_dir (List.filter outside_i18n fs) = direct_calls search_dir fs.
Proof.
  unfold find_i18n_usage, direct_calls. rewrite !walk_filter. split.
  - apply fold_left_skip. intros. by apply usage_in_file_i18n.
  - apply fold_left_skip. intros. by apply calls_in_file_i18n.
Qed.

(** the usages and the warnings of the per-key scan, file by file *)
Lemma fold_usage_in_file pattern search_dir (l : filesystem) u w :
  fold_left (usage_in_file pattern search_dir) l (u, w) =
  (u ++ flat_map (fun e => match snd e with
                           | Text content =>
                               if contains "i18n/" (fst e) then []
                               else locations pattern search_dir (fst e) content
                           | Unreadable _ => []
                           end) l,
   w ++ flat_map (fun e => match snd e with
                           | Unreadable err =>
                               if contains "i18n/" (fst e) then []
                               else [could_not_read (fst e) err]
                           | Text _ => []
                           end) l).
Proof.
  revert u w. induction l as [|[p f] l IH]; intros u w.
  - simpl. by rewrite !app_nil_r.
  - cbn [fold_left flat_map fst snd].
    assert (Hstep : usage_in_file pattern search_dir (u, w) (p, f) =
              (u ++ match f with
                    | Text content =>
                        if contains "i18n/" p then []
                        else locations pattern search_dir p content
                    | Unreadable _ => []
                    end,
               w ++ match f with
                    | Unreadable err =>
                        if contains "i18n/" p then [] else [could_not_read p err]
                    | Text _ => []
                    end)).
    { unfold usage_in_file. destruct (contains "i18n/" p), f; by rewrite ?app_nil_r. }
    rewrite Hstep, IH. by rewrite <- !app_assoc.
Qed.

Lemma flat_map_scanned {B} (g : string → string → list B) fs search_dir :
  flat_map (fun pc => g (fst pc) (snd pc)) (scanned fs search_dir) =
  flat_map (fun e => match snd e with
                     | Text content =>
                         if contains "i18n/" (fst e) then [] else g (fst e) content
                     | Unreadable _ => []
                     end) (walk fs search_dir).
Proof.
  unfold scanned. generalize (walk fs search_dir). intros l.
  induction l as [|[p f] l IH]; [done|]. simpl. rewrite flat_map_app, IH. f_equal.
  destruct f as [content|err]; [|done]. destruct (contains "i18n/" p); [done|].
  simpl. by rewrite app_nil_r.
Qed.

Lemma find_i18n_usage_by_file k search_dir fs :
  find_i18n_usage k search_dir fs =
  (flat_map (fun pc => locations (call_of k) search_dir (fst pc) (snd pc))
            (scanned fs search_dir),
   unreadable_warnings fs search_dir).
Proof.
  unfold find_i18n_usage. rewrite fold_usage_in_file. simpl.
  by rewrite (flat_map_scanned (locations (call_of k) search_dir)).
Qed.

Lemma scanned_text fs search_dir :
  scanned (List.filter is_text fs) search_dir = scanned fs search_dir.
Proof.
  unfold scanned. rewrite walk_filter. generalize (walk fs search_dir). intros l.
  induction l as [|[p f] l IH]; [done|]. simpl.
  destruct f as [content|err]; simpl; by rewrite IH.
Qed.

Lemma unreadable_warnings_text fs search_dir :
  unreadable_warnings (List.filter is_text fs) search_dir = [].
Proof.
  unfold unreadable_warnings. rewrite walk_filter. generalize (walk fs search_dir).
  intros l. induction l as [|[p f] l IH]; [done|]. simpl.
  destruct f as [content|err]; simpl; by rewrite IH.
Qed.

(** X9: A file that cannot be read adds a warning and nothing else: the
    locations of the per-key scan are those of the readable files, a tree of
    readable files gives no warning, and the warnings are one per unreadable
    file outside the declaration directory, in the order of the walk. *)
Theorem unreadable_files_only_warn (k search_dir : string) (fs : filesystem) :
  fst (find_i18n_usage k search_dir fs)
  = fst (find_i18n_usage k search_dir (List.filter is_text fs))
  ∧ snd (find_i18n_usage k search_dir (List.filter is_text fs)) = []
  ∧ snd (find_i18n_usage k search_dir fs) = unreadable_warnings fs search_dir.
Proof.
  rewrite !find_i18n_usage_by_file. simpl.
  by rewrite scanned_text, unreadable_warnings_text.
Qed.

Lemma in_locations pattern search_dir file_path content file line :
  In (file, line) (locations pattern search_dir file_path content) →
  file = relative_to search_dir file_path ∧ (1 ≤ line ≤ line_count content)%nat.
Proof.
  unfold locations. fold (strip_comments content). intros H.
  apply in_map_iff in H as (m & [= <- <-] & _). split; [done|].
  pose proof (line_of_bounds (strip_comments content) (m_start m)).
  pose proof (strip_comments_line_count_le content). lia.
Qed.

(** X10: Every location the per-key scan reports names a scanned file by its
    path relative to the search directory, with a line number between one
    and the number of lines of that file. *)
Theorem usage_locations_in_file (k search_dir : string) (fs : filesystem)
    (file : string) (line : nat) :
  In (file, line) (fst (find_i18n_usage k search_dir fs)) →
  ∃ file_path content,
    In (file_path, content) (scanned fs search_dir)
    ∧ file = relative_to search_dir file_path
    ∧ (1 ≤ line ≤ line_count content)%nat.
Proof.
  rewrite find_i18n_usage_by_file. simpl. intros H.
  apply in_flat_map in H as ([file_path content] & Hin & H).
  apply in_locations in H. eauto.
Qed.

Lemma usage_locations_in_file_witness :
  In ("App.vue", 1) (fst (find_i18n_usage "a" FRONTEND_DIR one_unused))
  ∧ ∃ file_path content,
      In (file_path, content) (scanned one_unused FRONTEND_DIR)
      ∧ "App.vue" = relative_to FRONTEND_DIR file_path
      ∧ (1 ≤ 1 ≤ line_count content)%nat.
Proof.
  assert (H : In ("App.vue", 1) (fst (find_i18n_usage "a" FRONTEND_DIR one_unused)))
    by (vm_compute; left; reflexivity).
  split; [exact H|].
  exact (usage_locations_in_file "a" FRONTEND_DIR one_unused "App.vue" 1 H).
Defined.


(** ** Order of the reported keys *)

Lemma string_leb_trans a b c :
  String.leb a b = true → String.leb b c = true → String.leb a c = true.
Proof.
  unfold String.leb. revert b c.
  induction a as [|ca a IH]; intros [|cb b] [|cc c]; simpl; try done.
  unfold Ascii.compare.
  destruct (N.compare_spec (N_of_ascii ca) (N_of_ascii cb)) as [E1|E1|E1];
    destruct (N.compare_spec (N_of_ascii cb) (N_of_ascii cc)) as [E2|E2|E2];
    destruct (N.compare_spec (N_of_ascii ca) (N_of_ascii cc)) as [E3|E3|E3];
    try done; try lia.
  apply IH.
Qed.

Lemma string_leb_total : Total (fun a b : string => String.leb a b).
Proof.
  intros a b. destruct (String.leb_total a b) as [H|H]; [left|right]; by rewrite H.
Qed.

Lemma string_leb_transitive : Transitive (fun a b : string => String.leb a b).
Proof.
  intros a b c H1 H2. apply Is_true_true in H1, H2. apply Is_true_true.
  by apply (string_leb_trans a b c).
Qed.

Lemma string_leb_antisymm : AntiSymm eq (fun a b : string => String.leb a b).
Proof.
  intros a b H1 H2. apply Is_true_true in H1, H2. by apply String.leb_antisym.
Qed.

Lemma sorted_strongly (l : list string) :
  StronglySorted (fun a b : string => String.leb a b) (sorted l).
Proof.
  unfold sorted.
  apply (StronglySorted_merge_sort _ (Transitive0:=string_leb_transitive) (Total0:=string_leb_total)).
Qed.

Lemma strongly_sorted_filter {A} (R : A → A → Prop) (P : A → bool) (l : list A) :
  StronglySorted R l → StronglySorted R (List.filter P l).
Proof.
  induction 1 as [|x l Hs IH Hall]; [constructor|]. simpl.
  destruct (P x); [|done]. constructor; [done|].
  apply Forall_forall. intros y Hy. apply list_elem_of_In, filter_In in Hy as [Hy _].
  rewrite Forall_forall in Hall. apply Hall. by apply list_elem_of_In.
Qed.

Lemma nodup_sorted_elements (X : gset string) : NoDup (sorted (elements X)).
Proof.
  unfold sorted. rewrite merge_sort_Permutation. apply NoDup_elements.
Qed.

Lemma nodup_filter {A} (P : A → bool) (l : list A) : NoDup l → NoDup (List.filter P l).
Proof.
  induction 1 as [|x l Hx Hl IH]; [constructor|]. simpl.
  destruct (P x); [|done]. constructor; [|done].
  intros Hin. apply Hx. apply list_elem_of_In, filter_In in Hin as [Hin _].
  by apply list_elem_of_In.
Qed.

Lemma unused_is_filter fs used l acc :
  fst (fold_left (unused_step fs used) l acc) =
  fst acc ++ List.filter
    (fun k => (List.length (fst (find_i18n_usage k FRONTEND_DIR fs)) =? 0)%nat
              && negb (bool_decide (k ∈ used))) l.
Proof.
  revert acc. induction l as [|x l IH]; intros [u w]; simpl; [by rewrite app_nil_r|].
  rewrite IH. unfold unused_step.
  destruct (find_i18n_usage x FRONTEND_DIR fs) as [usages w']. simpl.
  destruct ((List.length usages =? 0)%nat && negb (bool_decide (x ∈ used))); simpl;
    [by rewrite <- app_assoc|done].
Qed.

Lemma sorted_fixed (l : list string) :
  StronglySorted (fun a b : string => String.leb a b) l → sorted l = l.
Proof.
  intros H.
  apply (StronglySorted_unique (fun a b : string => String.leb a b)
           (AntiSymm0:=string_leb_antisymm)).
  - apply sorted_strongly.
  - exact H.
  - unfold sorted. apply merge_sort_Permutation.
Qed.

Lemma in_sorted_elements (X : gset string) (k : string) :
  In k (sorted (elements X)) ↔ k ∈ X.
Proof.
  rewrite <- list_elem_of_In. unfold sorted. rewrite merge_sort_Permutation.
  apply elem_of_elements.
Qed.

(** X11: The key lists of a run are in ascending order of their characters and
    hold no key twice: the declared keys, the reported keys, the unused keys
    and the two lists of keys that one locale file lacks. *)
Theorem key_lists_ascending (fs : filesystem) (r : reconciliation) (w : list string) :
  main fs = Returned r w →
  Forall (fun l => StronglySorted (fun a b : string => String.leb a b) l ∧ NoDup l)
    [all_keys r; filtered_keys r; unused_keys r;
     missing_in_zh_filtered r; missing_in_en_filtered r].
Proof.
  intros H. apply main_returned in H
    as (enk & enc & zhk & zhc & tyk & w1 & w2 & w3 & Hen & Hzh & Hty & -> & _).
  destruct (reconcile_fields fs enk enc zhk zhc tyk)
    as (_ & _ & _ & _ & Hall & Hfil & _ & _ & _ & Hun).
  rewrite Hun, unused_is_filter, Hfil, Hall. simpl. unfold reconcile.
  destruct (find_all_i18n_calls FRONTEND_DIR fs) as [calls wa].
  destruct (fold_left (label_usage_step fs) special_files (∅, [])) as [used wb].
  destruct (fold_left (unused_step fs used) _ ([], [])) as [unused wc]. simpl.
  repeat (apply Forall_cons; split); try apply Forall_nil; try split;
    repeat apply strongly_sorted_filter; try apply sorted_strongly;
    repeat apply nodup_filter; apply nodup_sorted_elements.
Qed.

Lemma key_lists_ascending_witness :
  ∃ r w, main one_unused = Returned r w
         ∧ Forall (fun l => StronglySorted (fun a b : string => String.leb a b) l ∧ NoDup l)
             [all_keys r; filtered_keys r; unused_keys r;
              missing_in_zh_filtered r; missing_in_en_filtered r].
Proof.
  pose (r := english_only_run one_unused two_leaves_locale).
  exists r. eexists.
  assert (H : main one_unused = Returned r _) by (vm_compute; reflexivity).
  split; [exact H|]. exact (key_lists_ascending one_unused r _ H).
Defined.

(** X12: The report sorts the unused keys before listing them; the list is
    already in that order, so the table lists them as the loop found them. *)
Theorem unused_keys_already_sorted (fs : filesystem) (r : reconciliation)
    (w : list string) :
  main fs = Returned r w → sorted (unused_keys r) = unused_keys r.
Proof.
  intros H. apply sorted_fixed.
  apply main_returned in H
    as (enk & enc & zhk & zhc & tyk & w1 & w2 & w3 & Hen & Hzh & Hty & -> & _).
  destruct (reconcile_fields fs enk enc zhk zhc tyk)
    as (_ & _ & _ & _ & Hall & Hfil & _ & _ & _ & Hun).
  rewrite Hun, unused_is_filter, Hfil, Hall. simpl.
  repeat apply strongly_sorted_filter. apply sorted_strongly.
Qed.

Lemma unused_keys_already_sorted_witness :
  ∃ r w, main one_unused = Returned r w ∧ sorted (unused_keys r) = unused_keys r.
Proof.
  pose (r := english_only_run one_unused two_leaves_locale).
  exists r. eexists.
  assert (H : main one_unused = Returned r _) by (vm_compute; reflexivity).
  split; [exact H|]. exact (unused_keys_already_sorted one_unused r _ H).
Defined.

Lemma inconsistency_lists fs enk enc zhk zhc tyk :
  let r := fst (reconcile fs enk enc zhk zhc tyk) in
  missing_in_zh_filtered r =
    List.filter (fun k => negb (bool_decide (k ∈ enc ∪ zhc)))
      (sorted (elements (dom enk ∖ dom zhk)))
  ∧ missing_in_en_filtered r =
    List.filter (fun k => negb (bool_decide (k ∈ enc ∪ zhc)))
      (sorted (elements (dom zhk ∖ dom enk))).
Proof.
  unfold reconcile.
  destruct (find_all_i18n_calls FRONTEND_DIR fs) as [calls wa].
  destruct (fold_left (label_usage_step fs) special_files (∅, [])) as [used wb].
  destruct (fold_left (unused_step fs used) _ ([], [])) as [unused wc]. simpl.
  done.
Qed.

Lemma in_not_category (cats : gset string) (l : list string) (k : string) :
  In k (List.filter (fun k => negb (bool_decide (k ∈ cats))) l) ↔ In k l ∧ k ∉ cats.
Proof.
  rewrite filter_In, negb_true_iff, bool_decide_eq_false. tauto.
Qed.

(** X13: A key is listed as missing in the Chinese locale file exactly when the
    English file declares it, the Chinese file does not, and neither file
    declares it as a category; the table row then reads the key's English
    line, which exists.  The same holds with the two files exchanged, and no
    key is in both lists. *)
Theorem locale_inconsistencies (fs : filesystem) (r : reconciliation)
    (w : list string) (k : string) :
  main fs = Returned r w →
  (In k (missing_in_zh_filtered r) ↔
     is_Some (en_keys r !! k) ∧ zh_keys r !! k = None ∧ k ∉ all_categories r)
  ∧ (In k (missing_in_en_filtered r) ↔
     is_Some (zh_keys r !! k) ∧ en_keys r !! k = None ∧ k ∉ all_categories r)
  ∧ ¬ (In k (missing_in_zh_filtered r) ∧ In k (missing_in_en_filtered r)).
Proof.
  intros H. apply main_returned in H
    as (enk & enc & zhk & zhc & tyk & w1 & w2 & w3 & Hen & Hzh & Hty & -> & _).
  destruct (reconcile_fields fs enk enc zhk zhc tyk)
    as (Hek & Hzk & _ & Hcat & _).
  destruct (inconsistency_lists fs enk enc zhk zhc tyk) as [Hmz Hme].
  rewrite Hmz, Hme, Hek, Hzk, Hcat.
  rewrite !in_not_category, !in_sorted_elements, !elem_of_difference, !elem_of_dom,
    <- !eq_None_not_Some.
  repeat split; try tauto.
  intros [[[[x Hx] _] _] [[_ Hn] _]]. congruence.
Qed.

Lemma locale_inconsistencies_witness :
  ∃ r w, main inconsistent_locales = Returned r w
    ∧ (In "a.b" (missing_in_zh_filtered r) ↔
         is_Some (en_keys r !! "a.b") ∧ zh_keys r !! "a.b" = None
         ∧ "a.b" ∉ all_categories r)
    ∧ (In "a.b" (missing_in_en_filtered r) ↔
         is_Some (zh_keys r !! "a.b") ∧ en_keys r !! "a.b" = None
         ∧ "a.b" ∉ all_categories r)
    ∧ ¬ (In "a.b" (missing_in_zh_filtered r) ∧ In "a.b" (missing_in_en_filtered r)).
Proof.
  pose (r := fst (reconcile inconsistent_locales
                    (keys (extract_from category_locale value_pattern))
                    (categories (extract_from category_locale value_pattern))
                    (keys (extract_from leaf_locale value_pattern))
                    (categories (extract_from leaf_locale value_pattern))
                    ∅)).
  exists r. eexists.
  assert (H : main inconsistent_locales = Returned r _) by (vm_compute; reflexivity).
  split; [exact H|]. exact (locale_inconsistencies inconsistent_locales r _ "a.b" H).
Defined.

(** ** Keys that are used but not declared *)

(** X14: A key in the set of missing keys has an entry in the index of calls
    with at least one location, so the table row of the key can read its
    locations and counts at least one; such a key is not a declared key and
    not an unused key. *)
Theorem missing_keys_have_locations (fs : filesystem) (r : reconciliation)
    (w : list string) (k : string) :
  main fs = Returned r w → k ∈ missing_keys r →
  (∃ l, all_calls r !! k = Some l ∧ l ≠ [])
  ∧ ¬ In k (all_keys r) ∧ ¬ In k (unused_keys r).
Proof.
  intros H Hk. apply main_returned in H
    as (enk & enc & zhk & zhc & tyk & w1 & w2 & w3 & Hen & Hzh & Hty & -> & _).
  destruct (reconcile_fields fs enk enc zhk zhc tyk)
    as (_ & _ & _ & _ & Hall & Hfil & Hcalls & Hmiss & _ & Hun).
  rewrite Hmiss in Hk. apply elem_of_difference in Hk as [Hd Hn].
  rewrite elem_of_list_to_set, list_elem_of_In in Hn.
  split; [|split; [exact Hn|]].
  - apply elem_of_dom in Hd as [l Hl]. exists l. split; [done|].
    rewrite Hcalls in Hl. by apply index_ok_find_all in Hl as [Hl _].
  - intros Hu. apply Hn. rewrite Hun, unused_is_filter in Hu. simpl in Hu.
    apply filter_In in Hu as [Hu _]. rewrite Hfil in Hu.
    by apply filter_In in Hu as [Hu _].
Qed.

Lemma missing_keys_have_locations_witness :
  ∃ r w, main call_and_label = Returned r w ∧ "other" ∈ missing_keys r
    ∧ (∃ l, all_calls r !! "other" = Some l ∧ l ≠ [])
    ∧ ¬ In "other" (all_keys r) ∧ ¬ In "other" (unused_keys r).
Proof.
  pose (r := fst (reconcile call_and_label ∅ ∅ ∅ ∅ ∅)).
  exists r. eexists.
  assert (H : main call_and_label = Returned r _) by (vm_compute; reflexivity).
  assert (Hk : "other" ∈ missing_keys r)
    by (apply (bool_decide_unpack _); vm_compute; exact I).
  split; [exact H|]. split; [exact Hk|].
  exact (missing_keys_have_locations call_and_label r _ "other" H Hk).
Defined.

(** ** Grouping by depth *)

Lemma group_by_depth_lookup (l : list string) (m : gmap nat (list string)) (d : nat) :
  default [] (fold_left group_by_depth l m !! d) =
  default [] (m !! d) ++ List.filter (fun k => (get_nesting_depth k =? d)%nat) l.
Proof.
  revert m. induction l as [|x l IH]; intros m; simpl; [by rewrite app_nil_r|].
  rewrite IH. unfold group_by_depth.
  destruct (Nat.eqb_spec (get_nesting_depth x) d) as [->|Hne].
  - rewrite lookup_insert_eq. simpl. by rewrite <- app_assoc.
  - by rewrite lookup_insert_ne.
Qed.

Lemma group_by_depth_nonempty (l : list string) (m : gmap nat (list string)) :
  (∀ d g, m !! d = Some g → g ≠ []) →
  ∀ d g, fold_left group_by_depth l m !! d = Some g → g ≠ [].
Proof.
  revert m. induction l as [|x l IH]; intros m Hm; simpl; [exact Hm|].
  apply IH. intros d g. unfold group_by_depth.
  destruct (decide (get_nesting_depth x = d)) as [->|Hne].
  - rewrite lookup_insert_eq. intros [= <-]. by destruct (default [] _).
  - rewrite lookup_insert_ne by done. apply Hm.
Qed.

(** X15: The group of a depth holds exactly the reported keys of that depth, in
    the order of the report; a depth has a group only if some key has it, so
    no level of the distribution is printed with a count of zero, and every
    depth with a group is at least one. *)
Theorem keys_by_depth_groups (filtered : list string) (d : nat) :
  default [] (keys_by_depth filtered !! d) =
    List.filter (fun k => (get_nesting_depth k =? d)%nat) filtered
  ∧ (is_Some (keys_by_depth filtered !! d) ↔
       ∃ k, In k filtered ∧ get_nesting_depth k = d)
  ∧ (is_Some (keys_by_depth filtered !! d) → (1 ≤ d)%nat).
Proof.
  assert (H1 : default [] (keys_by_depth filtered !! d) =
    List.filter (fun k => (get_nesting_depth k =? d)%nat) filtered).
  { unfold keys_by_depth. by rewrite group_by_depth_lookup, lookup_empty. }
  assert (H2 : is_Some (keys_by_depth filtered !! d) ↔
       ∃ k, In k filtered ∧ get_nesting_depth k = d).
  { split.
    - intros [g Hg].
      assert (Hne : g ≠ []).
      { apply (group_by_depth_nonempty filtered ∅) with d; [|exact Hg].
        intros d' g'. by rewrite lookup_empty. }
      rewrite Hg in H1. simpl in H1. destruct g as [|k g]; [done|].
      exists k. assert (Hin : In k (k :: g)) by (by left).
      rewrite H1 in Hin. apply filter_In in Hin as [Hin Hd].
      by apply Nat.eqb_eq in Hd.
    - intros (k & Hin & Hd).
      destruct (keys_by_depth filtered !! d) as [g|] eqn:E; [by eexists|].
      simpl in H1. assert (Hk : In k []).
      { rewrite H1. apply filter_In. split; [done|]. by apply Nat.eqb_eq. }
      destruct Hk. }
  split; [exact H1|]. split; [exact H2|].
  intros Hs. apply H2 in Hs as (k & _ & <-). unfold get_nesting_depth. lia.
Qed.

Lemma keys_by_depth_groups_witness :
  is_Some (keys_by_depth ["a"; "b.c"] !! 2) ∧ (1 ≤ 2)%nat.
Proof.
  assert (H : is_Some (keys_by_depth ["a"; "b.c"] !! 2))
    by (vm_compute; eexists; reflexivity).
  split; [exact H|].
  destruct (keys_by_depth_groups ["a"; "b.c"] 2) as (_ & _ & W). exact (W H).
Defined.


(** ** What the comment stripper removes *)

Lemma lazy_dot_to_eol prev t n :
  star_lazy dot prev t n None
    (fun prev' s' n' g' => exec Eol prev' s' n' g' report) = Some (n + eol_len t, "").
Proof.
  revert prev n. induction t as [|c t IH]; intros prev n; unfold eol_len; simpl.
  - by rewrite Nat.add_0_r.
  - unfold dot at 1 3. destruct (is_newline c); simpl; [by rewrite Nat.add_0_r|].
    rewrite IH. unfold eol_len. destruct (span dot t) as [a b]. simpl.
    by rewrite Nat.add_succ_r.
Qed.

Lemma match_at_line_comment prev s :
  match_at line_comment prev s =
  if starts_with "//" s then Some (2 + eol_len (drop_chars 2 s), "") else None.
Proof.
  unfold match_at, line_comment. cbn [seq exec]. rewrite literal_spec.
  destruct (starts_with "//" s); [|done]. apply lazy_dot_to_eol.
Qed.

Lemma re_sub_line_comment_prev prev prev' skip s :
  re_sub_from line_comment prev skip s = re_sub_from line_comment prev' skip s.
Proof.
  destruct s as [|c s]; [done|]. simpl. destruct skip; [|done].
  by rewrite (match_at_line_comment prev), (match_at_line_comment prev').
Qed.

(** stepping over the rest of a comment lands at the end of its line *)
Lemma re_sub_skip_to_eol prev s :
  re_sub_from line_comment prev (eol_len s) s =
  re_sub_from line_comment None 0 (snd (span dot s)).
Proof.
  revert prev. induction s as [|c s IH]; intros prev; [done|].
  unfold eol_len. simpl. destruct (dot c) eqn:Hc.
  - destruct (span dot s) as [a b] eqn:E. simpl.
    specialize (IH (Some c)). unfold eol_len in IH. rewrite E in IH. exact IH.
  - simpl. by rewrite (match_at_line_comment prev), (match_at_line_comment None).
Qed.

Lemma split_lines_cons c s :
  split_lines (String c s) =
  if is_newline c then "" :: split_lines s
  else String c (hd "" (split_lines s)) :: tl (split_lines s).
Proof.
  simpl. destruct (is_newline c); [done|]. 
  destruct (split_lines s) eqn:E; [|done]. by destruct s; simpl in E; [|destruct (is_newline a); [|destruct (split_lines s)]].
Qed.

Lemma split_lines_nonempty s : split_lines s ≠ [].
Proof.
  destruct s as [|c s]; [done|]. rewrite split_lines_cons. by destruct (is_newline c).
Qed.

Lemma split_lines_hd_tl s : split_lines s = hd "" (split_lines s) :: tl (split_lines s).
Proof. pose proof (split_lines_nonempty s). by destruct (split_lines s). Qed.

(** the first line of a text and the text from the end of that line *)
Lemma split_lines_span s :
  hd "" (split_lines s) = fst (span dot s)
  ∧ tl (split_lines s) = tl (split_lines (snd (span dot s)))
  ∧ hd "" (split_lines (snd (span dot s))) = "".
Proof.
  induction s as [|c s (IH1 & IH2 & IH3)]; [done|].
  rewrite split_lines_cons. cbn [span]. unfold dot at 1 3 5.
  destruct (is_newline c) eqn:Hc; cbn [negb fst snd hd tl].
  - rewrite split_lines_cons, Hc. done.
  - destruct (span dot s) as [a b]. cbn [fst snd hd tl] in *. by rewrite IH1.
Qed.

Lemma cut_comment_starts s : starts_with "//" s = true → cut_comment s = "".
Proof. destruct s as [|c s]; simpl; [done|]. by intros ->. Qed.

Lemma starts_with_span l s :
  all_chars dot l = true → starts_with l (fst (span dot s)) = starts_with l s.
Proof.
  revert s. induction l as [|a l IH]; intros s Hl; [done|].
  simpl in Hl. apply andb_prop in Hl as [Ha Hl].
  destruct s as [|c s]; [done|]. cbn [span].
  destruct (dot c) eqn:Hc.
  - specialize (IH s Hl). destruct (span dot s) as [x y]. simpl in *.
    by rewrite IH.
  - simpl. destruct (Ascii.eqb_spec a c) as [->|]; [congruence|done].
Qed.

Lemma starts_with_first_line s :
  starts_with "//" (fst (span dot s)) = starts_with "//" s.
Proof. by apply starts_with_span. Qed.

Lemma length_append a b : String.length (a +:+ b) = String.length a + String.length b.
Proof. induction a as [|c a IH]; [done|]. rewrite append_cons. simpl. by rewrite IH. Qed.

Lemma line_comments_by_line_aux n : ∀ s, (String.length s ≤ n)%nat →
  split_lines (re_sub_from line_comment None 0 s) = map cut_comment (split_lines s).
Proof.
  induction n as [|n IH]; intros [|c s] Hlen; simpl in Hlen; try done; try lia.
  cbn [re_sub_from]. rewrite match_at_line_comment.
  destruct (starts_with "//" (String c s)) eqn:E.
  - destruct s as [|c2 t];
      [cbn [starts_with] in E; rewrite andb_false_r in E; discriminate|].
    cbn [drop_chars Nat.add].
    cbn [starts_with] in E. rewrite andb_true_r in E.
    apply andb_prop in E as [E1 E2].
    apply Ascii.eqb_eq in E1 as <-. apply Ascii.eqb_eq in E2 as <-.
    assert (Hd : dot "/" = true) by done.
    assert (Hskip : S (eol_len t) = eol_len (String "/" t)).
    { unfold eol_len. cbn [span]. rewrite Hd. by destruct (span dot t). }
    rewrite Hskip, re_sub_skip_to_eol.
    assert (Hrest : snd (span dot (String "/" (String "/" t)))
                    = snd (span dot (String "/" t))).
    { cbn [span]. rewrite Hd. by destruct (span dot t). }
    rewrite IH.
    2:{ pose proof (span_app dot (String "/" t)) as Ha.
        apply (f_equal String.length) in Ha. rewrite length_append in Ha.
        cbn [String.length] in Ha, Hlen. lia. }
    destruct (split_lines_span (String "/" (String "/" t))) as (H1 & H2 & H3).
    rewrite (split_lines_hd_tl (String "/" (String "/" t))), H1, H2.
    rewrite (split_lines_hd_tl (snd (span dot (String "/" t)))), <- Hrest, H3.
    cbn [map]. f_equal. symmetry. apply cut_comment_starts.
    by rewrite starts_with_first_line.
  - rewrite (re_sub_line_comment_prev (Some c) None).
    rewrite split_lines_cons, (split_lines_cons c s), IH by lia.
    destruct (is_newline c) eqn:Hc; [done|].
    pose proof (split_lines_nonempty s) as Hne.
    destruct (split_lines_span s) as (H1 & _).
    destruct (split_lines s) as [|h ls]; [done|]. cbn [map hd tl] in *. f_equal.
    assert (Hs : starts_with "//" (String c h) = false).
    { rewrite H1. etrans; [|exact E].
      rewrite <- (starts_with_first_line (String c s)).
      cbn [span]. assert (Hd : dot c = true) by (unfold dot; by rewrite Hc).
      rewrite Hd. by destruct (span dot s). }
    change (cut_comment (String c h)) with
      (if starts_with "//" (String c h) then "" else String c (cut_comment h)).
    by rewrite Hs.
Qed.

(** X16: Removing the line comments cuts every line at its first pair of
    slashes, wherever the pair stands (in a string literal too), and leaves
    everything else of the line as it is. *)
Theorem line_comments_cut_each_line (content : string) :
  split_lines (re_sub line_comment content) = map cut_comment (split_lines content).
Proof. by apply (line_comments_by_line_aux (String.length content)). Qed.

Lemma re_sub_without_opener l r prev s :
  contains l s = false → re_sub_from (Cat (Lit l) r) prev 0 s = s.
Proof.
  revert prev. induction s as [|c s IH]; intros prev H; [done|].
  cbn [contains] in H. apply orb_false_elim in H as [H1 H2].
  cbn [re_sub_from]. unfold match_at. cbn [exec]. rewrite literal_spec, H1.
  by rewrite IH.
Qed.

(** X17: A text that holds neither a pair of slashes nor a slash followed by a
    star comes out of the comment stripper as it went in. *)
Theorem text_without_comments_unchanged (content : string) :
  contains "//" content = false → contains "/*" content = false →
  strip_comments content = content.
Proof.
  intros H1 H2. unfold strip_comments, re_sub.
  change line_comment with (Cat (Lit "//") (Cat (LazyStar dot) Eol)).
  change block_comment with (Cat (Lit "/*") (Cat (LazyStar dotall) (Lit "*/"))).
  rewrite (re_sub_without_opener "//") by done.
  by apply re_sub_without_opener.
Qed.

Lemma text_without_comments_unchanged_witness :
  strip_comments "a: 'x / y'," = "a: 'x / y',".
Proof. apply text_without_comments_unchanged; reflexivity. Defined.


(** ** The order of the locations of a table row *)

Lemma string_compare_refl (s : string) : String.compare s s = Eq.
Proof.
  induction s as [|c s IH]; [done|]. simpl.
  unfold Ascii.compare. by rewrite N.compare_refl.
Qed.

Lemma string_ltb_leb (a b : string) :
  String.ltb a b = true ↔ String.leb a b = true ∧ a ≠ b.
Proof.
  unfold String.ltb, String.leb.
  destruct (String.compare a b) eqn:E.
  - apply String.compare_eq_iff in E. split; [done|]. intros [_ H]. done.
  - split; [|done]. intros _. split; [done|]. intros ->.
    by rewrite string_compare_refl in E.
  - split; [done|]. by intros [H _].
Qed.

Lemma usage_le_spec (a b : string * nat) :
  usage_le a b = true ↔
  (String.leb a.1 b.1 = true ∧ a.1 ≠ b.1) ∨ (a.1 = b.1 ∧ (a.2 ≤ b.2)%nat).
Proof.
  unfold usage_le. rewrite orb_true_iff, andb_true_iff, string_ltb_leb,
    String.eqb_eq, Nat.leb_le. done.
Qed.

Lemma usage_le_total : Total (fun a b : string * nat => usage_le a b).
Proof.
  intros a b. rewrite !Is_true_true, !usage_le_spec.
  destruct (decide (a.1 = b.1)) as [E|E].
  - destruct (Nat.le_ge_cases a.2 b.2); [left|right]; right; split; done.
  - destruct (String.leb_total a.1 b.1) as [H|H]; [left|right]; left; split; done.
Qed.

Lemma usage_le_transitive :
  Transitive (fun a b : string * nat => usage_le a b).
Proof.
  intros a b c. rewrite !Is_true_true, !usage_le_spec.
  intros [[H1 N1]|[E1 L1]] [[H2 N2]|[E2 L2]].
  - left. split; [by apply (string_leb_trans _ b.1)|]. intros E. rewrite E in H1.
    by apply N2, String.leb_antisym.
  - left. by rewrite <- E2.
  - left. by rewrite E1.
  - right. split; [congruence|lia].
Qed.

Lemma usage_le_antisymm :
  AntiSymm eq (fun a b : string * nat => usage_le a b).
Proof.
  intros [a1 a2] [b1 b2]. rewrite !Is_true_true, !usage_le_spec. simpl.
  intros [[H1 N1]|[E1 L1]] [[H2 N2]|[E2 L2]]; try congruence.
  - exfalso. by apply N1, String.leb_antisym.
  - f_equal; [done|lia].
Qed.

Lemma sorted_usages_permutation (u1 u2 : list (string * nat)) :
  u1 ≡ₚ u2 → sorted_usages u1 = sorted_usages u2.
Proof.
  intros H. unfold sorted_usages.
  apply (StronglySorted_unique (fun a b : string * nat => usage_le a b)
           (AntiSymm0:=usage_le_antisymm)).
  - apply (StronglySorted_merge_sort _ (Transitive0:=usage_le_transitive) (Total0:=usage_le_total)).
  - apply (StronglySorted_merge_sort _ (Transitive0:=usage_le_transitive) (Total0:=usage_le_total)).
  - by rewrite !merge_sort_Permutation.
Qed.

(** X18: The cell of locations does not depend on the order in which the scan
    found them: two lists with the same locations, each as often, give the
    same text. *)
Theorem usage_links_order_independent (u1 u2 : list (string * nat)) (is_windows : bool) :
  u1 ≡ₚ u2 → create_usage_links u1 is_windows = create_usage_links u2 is_windows.
Proof.
  intros H. unfold create_usage_links.
  rewrite (sorted_usages_permutation u1 u2 H).
  pose proof (Permutation_length H) as Hl.
  destruct u1 as [|a u1], u2 as [|b u2]; try done.
  by rewrite Hl.
Qed.

Lemma usage_links_order_independent_witness :
  create_usage_links [("b.ts", 2); ("a.vue", 7)] false
  = create_usage_links [("a.vue", 7); ("b.ts", 2)] false.
Proof. apply usage_links_order_independent. apply Permutation_swap. Defined.

Lemma join_nonempty sep x rest : x ≠ "" → join sep (x :: rest) ≠ "".
Proof.
  destruct x as [|c x]; [done|]. intros _. destruct rest; [done|].
  change (join sep (String c x :: s :: rest))
    with (String c x +:+ sep +:+ join sep (s :: rest)).
  by rewrite append_cons.
Qed.

Lemma append_nonempty a b : a ≠ "" → a +:+ b ≠ "".
Proof. destruct a; [done|]. by rewrite append_cons. Qed.

(** X19: The cell of locations is empty exactly when the key has no
    location. *)
Theorem usage_links_empty_iff (usages : list (string * nat)) (is_windows : bool) :
  create_usage_links usages is_windows = "" ↔ usages = [].
Proof.
  split; [|by intros ->]. unfold create_usage_links.
  destruct usages as [|u usages]; [done|]. intros H. exfalso. revert H.
  pose proof (merge_sort_Permutation (fun a b => usage_le a b) (u :: usages)) as Hp.
  apply Permutation_length in Hp. fold (sorted_usages (u :: usages)) in Hp.
  destruct (sorted_usages (u :: usages)) as [|v vs]; [done|].
  cbn [firstn map].
  assert (Hj : ∀ l, join ", " (create_file_link (replace "frontend/src/" "" v.1) v.2
                               is_windows :: l) ≠ "").
  { intros l. apply join_nonempty. unfold create_file_link. by rewrite append_cons. }
  destruct (_ <? _)%nat; [apply append_nonempty|]; apply Hj.
Qed.


(** ** The type extractors *)

Lemma well_nested_key_nested st k : well_nested_key st k → nested_in (keys st) k.
Proof.
  intros (segs & x & Hk & Hid & Hp). exists segs, x. repeat split; try done.
  intros Hne. by apply Hp.
Qed.

(** X20: Every key of a type table is a dot-join of identifiers, and the key
    without its last segment is a key of the table too: a nested type is
    never listed without the type that holds it.  This holds for the type
    extractor of both analyzers. *)
Theorem type_keys_nested (content k : string) :
  (k ∈ dom (keys (extract_from content type_value_pattern)) →
   nested_in (keys (extract_from content type_value_pattern)) k)
  ∧ (k ∈ dom (keys (LegacyRest.extract_types_from content)) →
     nested_in (keys (LegacyRest.extract_types_from content)) k).
Proof.
  split; intros Hk; apply well_nested_key_nested.
  - by apply (well_nested_extract content (Lit "string;")).
  - revert Hk. unfold LegacyRest.extract_types_from.
    apply (well_nested_fold LegacyRest.process_type_line);
      [apply well_nested_process_type_line|apply well_nested_initial].
Qed.

Lemma type_keys_nested_witness :
  "a.b" ∈ dom (keys (extract_from category_types type_value_pattern))
  ∧ nested_in (keys (extract_from category_types type_value_pattern)) "a.b"
  ∧ "a.b" ∈ dom (keys (LegacyRest.extract_types_from category_types))
  ∧ nested_in (keys (LegacyRest.extract_types_from category_types)) "a.b".
Proof.
  assert (H1 : "a.b" ∈ dom (keys (extract_from category_types type_value_pattern)))
    by (apply (bool_decide_unpack _); vm_compute; exact I).
  assert (H2 : "a.b" ∈ dom (keys (LegacyRest.extract_types_from category_types)))
    by (apply (bool_decide_unpack _); vm_compute; exact I).
  destruct (type_keys_nested category_types "a.b") as [W1 W2].
  split; [exact H1|]. split; [exact (W1 H1)|]. split; [exact H2|exact (W2 H2)].
Defined.


(** ** The scan of the older analyzer *)

Lemma matches_somewhere_suffix r pre s prev :
  (∀ prev', is_Some (match_at r prev' s)) →
  LegacyRest.matches_somewhere r prev (pre +:+ s) = true.
Proof.
  intros H. revert prev. induction pre as [|c pre IH]; intros prev.
  - rewrite append_nil. destruct (H prev) as [x Hx].
    destruct s; simpl; by rewrite Hx.
  - rewrite append_cons. simpl.
    destruct (match_at r prev (String c (pre +:+ s))); [done|]. apply IH.
Qed.

Lemma tight_call_matches key q1 q2 post prev :
  is_quote2 q1 = true → is_quote2 q2 = true →
  is_Some (match_at (LegacyRest.tight_call key) prev
             ("t(" +:+ String q1 (key +:+ String q2 (")" +:+ post)))).
Proof.
  intros H1 H2. unfold match_at, LegacyRest.tight_call. cbn [seq exec].
  rewrite literal_spec, starts_with_prefix, drop_chars_app.
  rewrite H1. rewrite literal_spec, starts_with_prefix, drop_chars_app.
  rewrite H2. rewrite literal_spec, starts_with_prefix. by eexists.
Qed.

(** X21: The older analyzer counts a line as a use of a key wherever the line
    holds the letter t, an opening parenthesis, the quoted key and a closing
    parenthesis: whatever stands before the letter, so a call of another
    function whose name ends in t is counted as well. *)
Theorem legacy_call_needs_no_boundary (key pre post : string) (q1 q2 : ascii) :
  is_quote2 q1 = true → is_quote2 q2 = true →
  LegacyRest.line_has_call key
    (pre +:+ "t(" +:+ String q1 (key +:+ String q2 (")" +:+ post))) = true.
Proof.
  intros H1 H2. unfold LegacyRest.line_has_call. apply orb_true_intro. left.
  apply matches_somewhere_suffix. intros prev. by apply tight_call_matches.
Qed.

Lemma legacy_call_needs_no_boundary_witness :
  LegacyRest.line_has_call "save" "emit('save')" = true.
Proof. apply (legacy_call_needs_no_boundary "save" "emi" "" "'" "'"); reflexivity. Defined.

Lemma map_fst_filter_combine {A} (P : nat * A → bool) (ns : list nat) (xs : list A) :
  StronglySorted lt ns → StronglySorted lt (map fst (List.filter P (combine ns xs))).
Proof.
  intros H. revert xs. induction H as [|n ns Hs IH Hall]; intros xs; [constructor|].
  destruct xs as [|x xs]; [constructor|]. simpl.
  assert (Hrest : Forall (lt n) (map fst (List.filter P (combine ns xs)))).
  { apply Forall_forall. intros m Hm. apply list_elem_of_In, in_map_iff in Hm
      as ([m' y] & <- & Hin). apply filter_In in Hin as [Hin _].
    apply in_combine_l in Hin. rewrite Forall_forall in Hall.
    apply Hall. by apply list_elem_of_In. }
  destruct (P (n, x)); simpl; [constructor; [apply IH|done]|apply IH].
Qed.

(** X22: The older analyzer reports a line once, however many calls with the key
    the line holds, and reports the lines of a file in ascending order, each
    a line of the file. *)
Theorem legacy_lines_reported_once (key content : string) :
  StronglySorted lt (LegacyRest.lines_with_call key content)
  ∧ Forall (fun n => (1 ≤ n ≤ List.length (Legacy.readlines content))%nat)
      (LegacyRest.lines_with_call key content).
Proof.
  unfold LegacyRest.lines_with_call, Legacy.enumerate. split.
  - apply map_fst_filter_combine, seq_strictly_ascending.
  - apply Forall_forall. intros n Hn. apply list_elem_of_In, in_map_iff in Hn
      as ([n' y] & <- & Hin). apply filter_In in Hin as [Hin _].
    apply in_combine_l, in_seq in Hin. simpl. lia.
Qed.

